(** * Keyframe animation: the model of [animation_software.py]

    The development follows the classes of the source file:
    [AnimatedObject] (keyframe store, interpolation, brightness),
    [Canvas] (the scene), [Timeline] (pixel/frame mapping of the red bar)
    and [AnimationSoftware] (frame navigation, playback, loading).

    Numbers are the ones Python computes with: frames are unbounded
    integers ([Z]); positions, brightness and pixel coordinates are
    binary64 floats (Rocq's primitive [float], the same IEEE 754 format
    and rounding as a Python [float]).  A brightness that Python holds as
    a small [int] (the slider gives 0..200) is represented by the float of
    the same value, which is exact in that range.

    A raised exception is a value of [exn]; methods that assign to [self]
    before they may raise are written in a state-and-exception monad, so
    that the assignments made before the raise stay visible.

    Qt widgets are collaborators: a call such as [setBrush] or [setPos]
    is recorded as the field it sets, repainting and Qt's own callbacks
    are not followed. *)

From Stdlib Require Import ZArith Floats Ascii String Lia.
From stdpp Require Import gmap strings pretty list fin_maps.

Local Open Scope Z_scope.

(** ** Python exceptions and the two monads *)

Inductive exn : Type :=
  | KeyError (key : string)
  | ValueError
  | OverflowError
  | ZeroDivisionError.

(** A pure computation that may raise. *)
Definition res (A : Type) : Type := exn + A.

#[global] Instance res_ret : MRet res := fun A a => inr a.
#[global] Instance res_bind : MBind res := fun A B f m =>
  match m with
  | inl e => inl e
  | inr a => f a
  end.

(** A method running on a mutable receiver of type [S]: the final state
    is returned also when the method raises. *)
Definition M (S A : Type) : Type := S -> res A * S.

#[global] Instance M_ret {S} : MRet (M S) := fun A a s => (inr a, s).
#[global] Instance M_bind {S} : MBind (M S) := fun A B f m s =>
  match m s with
  | (inl e, s') => (inl e, s')
  | (inr a, s') => f a s'
  end.

Definition get {S} : M S S := fun s => (inr s, s).
Definition modify {S} (f : S -> S) : M S unit := fun s => (inr tt, f s).
Definition lift {S A} (r : res A) : M S A := fun s => (r, s).

(** A method called on a local object that nobody else holds yet: the
    object after the call, lost if the method raises. *)
Definition on_local {S O A} (m : M O A) (o : O) : M S O := fun s =>
  match m o with
  | (inl e, _) => (inl e, s)
  | (inr _, o') => (inr o', s)
  end.

(** [for obj in objs: body(obj)]: the loop stops at the first raise, the
    objects already visited keep their updates. *)
Fixpoint for_each {O} (body : M O unit) (objs : list O) : res unit * list O :=
  match objs with
  | [] => (inr tt, [])
  | obj :: rest =>
      match body obj with
      | (inl e, obj') => (inl e, obj' :: rest)
      | (inr _, obj') =>
          let '(r, rest') := for_each body rest in (r, obj' :: rest')
      end
  end.

(** ** Python numbers *)

Module Py.

(** [int(f)]: truncation toward zero; [OverflowError] on an infinity,
    [ValueError] on a NaN. *)
Definition int (f : float) : res Z :=
  match Prim2SF f with
  | S754_zero _ => inr 0
  | S754_finite s m e => inr (cond_Zopp s (Z.shiftl (Z.pos m) e))
  | S754_infinity _ => inl OverflowError
  | S754_nan => inl ValueError
  end.

(** The unnormalised float of an integer. *)
Definition Z2SF (n : Z) : spec_float :=
  match n with
  | Z0 => S754_zero false
  | Z.pos p => S754_finite false p 0
  | Z.neg p => S754_finite true p 0
  end.

(** An arithmetic result that is an infinity is Python's
    [OverflowError] when it comes from integers. *)
Definition of_SF (r : spec_float) : res float :=
  match r with
  | S754_infinity _ => inl OverflowError
  | _ => inr (SF2Prim r)
  end.

(** The conversion of an [int] operand that meets a float: the nearest
    float, ties to even. *)
Definition float_of_int (n : Z) : res float :=
  of_SF (binary_normalize prec emax n 0 false).

(** [a / b] on two [int]s: the correctly rounded quotient. *)
Definition truediv (a b : Z) : res float :=
  if decide (b = 0) then inl ZeroDivisionError
  else of_SF (SFdiv prec emax (Z2SF a) (Z2SF b)).

(** [x / n] with a float [x] and an [int] [n]. *)
Definition div_float_int (x : float) (n : Z) : res float :=
  if decide (n = 0) then inl ZeroDivisionError
  else nf ← float_of_int n; mret (x / nf)%float.

(** [n * x] with an [int] [n] and a float [x]. *)
Definition mul_int_float (n : Z) (x : float) : res float :=
  nf ← float_of_int n; mret (nf * x)%float.

(** [int(s)] on a string, base 10: surrounding white space, an optional
    sign, then digits, single underscores allowed between digits.
    Strings are taken in ASCII; the interpreter's limit on the number of
    digits is not modelled. *)
Definition is_space (c : ascii) : bool :=
  let n := nat_of_ascii c in
  ((9 <=? n)%nat && (n <=? 13)%nat) || (n =? 32)%nat.

Definition digit_of (c : ascii) : option Z :=
  let n := nat_of_ascii c in
  if ((48 <=? n)%nat && (n <=? 57)%nat) then Some (Z.of_nat n - 48) else None.

Fixpoint digits (acc : Z) (after_digit : bool) (l : list ascii) : option Z :=
  match l with
  | [] => if after_digit then Some acc else None
  | c :: r =>
      match digit_of c with
      | Some d => digits (10 * acc + d) true r
      | None =>
          if (Ascii.eqb c "_"%char && after_digit)%bool then digits acc false r
          else None
      end
  end.

Fixpoint lstrip (l : list ascii) : list ascii :=
  match l with
  | c :: r => if is_space c then lstrip r else l
  | [] => []
  end.

Definition strip (l : list ascii) : list ascii :=
  reverse (lstrip (reverse (lstrip l))).

Definition int_of_str (s : string) : res Z :=
  let body := strip (list_ascii_of_string s) in
  let signed :=
    match body with
    | c :: r =>
        if Ascii.eqb c "-"%char then (true, r)
        else if Ascii.eqb c "+"%char then (false, r)
        else (false, body)
    | [] => (false, [])
    end in
  match digits 0 false (snd signed) with
  | Some n => inr (if fst signed then - n else n)
  | None => inl ValueError
  end.

(** [min(l)] and [max(l)] on a list: [ValueError] on the empty one. *)
Definition min (l : list Z) : res Z :=
  match l with
  | [] => inl ValueError
  | k :: ks => inr (foldl Z.min k ks)
  end.

Definition max (l : list Z) : res Z :=
  match l with
  | [] => inl ValueError
  | k :: ks => inr (foldl Z.max k ks)
  end.

End Py.

(** ** Colours *)

(** A [QColor] as the three integers it was built from. *)
Record QColor : Type := mkQColor { red : Z; green : Z; blue : Z }.

(** What [QColor.red()] and its siblings can return. *)
Definition channel (c : Z) : Prop := 0 <= c <= 255.
Definition valid_color (c : QColor) : Prop :=
  channel (red c) /\ channel (green c) /\ channel (blue c).

(** ** Keyframes *)

(** The dict [{'x': .., 'y': .., 'brightness': ..}] stored per keyframe. *)
Record State : Type := mkState {
  kf_x : float;
  kf_y : float;
  kf_brightness : float
}.

(** [d.keys()] and [d[k]] on a keyframe dict. *)
Definition keys (d : gmap Z State) : list Z := (map_to_list d).*1.

Definition getitem (d : gmap Z State) (k : Z) : res State :=
  match d !! k with
  | Some v => inr v
  | None => inl (KeyError (pretty k))
  end.

Module AnimatedObject.

Record t : Type := mk {
  pos : float * float;
  size : float;
  base_color : QColor;
  brush : QColor;
  keyframes : gmap Z State;
  brightness : float
}.

Definition with_keyframes (k : gmap Z State) (o : t) : t :=
  mk (pos o) (size o) (base_color o) (brush o) k (brightness o).
Definition with_pos (p : float * float) (o : t) : t :=
  mk p (size o) (base_color o) (brush o) (keyframes o) (brightness o).
Definition with_brightness (b : float) (o : t) : t :=
  mk (pos o) (size o) (base_color o) (brush o) (keyframes o) b.
Definition with_brush (c : QColor) (o : t) : t :=
  mk (pos o) (size o) (base_color o) c (keyframes o) (brightness o).
Definition with_base_color (c : QColor) (o : t) : t :=
  mk (pos o) (size o) c (brush o) (keyframes o) (brightness o).

(** [__init__(x, y, size)] *)
Definition init (x y size : float) : t :=
  let base := mkQColor 100 150 255 in
  mk (x, y) size base base ∅ 100%float.

Definition add_keyframe (frame : Z) (self : t) : t :=
  with_keyframes
    (<[frame := mkState (fst (pos self)) (snd (pos self)) (brightness self)]>
       (keyframes self))
    self.

Definition remove_keyframe (frame : Z) (self : t) : t :=
  match keyframes self !! frame with
  | Some _ => with_keyframes (delete frame (keyframes self)) self
  | None => self
  end.

(** [None] of the source is [inr None]. *)
Definition get_interpolated_state (self : t) (frame : Z) : res (option State) :=
  let keyframes := keyframes self in
  match keys keyframes with
  | [] => inr None
  | _ :: _ =>
    match keyframes !! frame with
    | Some kf => inr (Some kf)
    | None =>
      let before_frames := filter (fun f => f < frame) (keys keyframes) in
      let after_frames := filter (fun f => f > frame) (keys keyframes) in
      match before_frames, after_frames with
      | [], _ =>
          first_frame ← Py.min (keys keyframes);
          kf ← getitem keyframes first_frame;
          mret (Some kf)
      | _ :: _, [] =>
          last_frame ← Py.max (keys keyframes);
          kf ← getitem keyframes last_frame;
          mret (Some kf)
      | _ :: _, _ :: _ =>
          frame_before ← Py.max before_frames;
          frame_after ← Py.min after_frames;
          kf_before ← getitem keyframes frame_before;
          kf_after ← getitem keyframes frame_after;
          t ← Py.truediv (frame - frame_before) (frame_after - frame_before);
          mret (Some (mkState
            (kf_x kf_before + (kf_x kf_after - kf_x kf_before) * t)
            (kf_y kf_before + (kf_y kf_after - kf_y kf_before) * t)
            (kf_brightness kf_before
               + (kf_brightness kf_after - kf_brightness kf_before) * t)))%float
      end
    end
  end.

(** One colour channel of [set_brightness]:
    [min(255, int(channel * factor))]. *)
Definition scaled (c : Z) (factor : float) : res Z :=
  v ← Py.mul_int_float c factor;
  n ← Py.int v;
  mret (Z.min 255 n).

Definition set_brightness (brightness : float) : M t unit :=
  modify (with_brightness brightness);;
  let factor := (brightness / 100)%float in
  self ← get;
  r ← lift (scaled (red (base_color self)) factor);
  g ← lift (scaled (green (base_color self)) factor);
  b ← lift (scaled (blue (base_color self)) factor);
  modify (with_brush (mkQColor r g b)).

Definition set_base_color (color : QColor) : M t unit :=
  modify (with_base_color color);;
  self ← get;
  set_brightness (brightness self).

Definition setPos (x y : float) : M t unit := modify (with_pos (x, y)).

End AnimatedObject.

(** ** The scene *)

Module Canvas.

Record t : Type := mk { objects : list AnimatedObject.t }.

Definition init : t := mk [].

(** [add_object]: both branches of the source build the same circle. *)
Definition add_object (self : t) : t :=
  mk (objects self ++ [AnimatedObject.init 400 300 50]).

Definition clear_all (self : t) : t := mk [].

End Canvas.

(** ** The timeline and its red bar *)

Module Timeline.

Record t : Type := mk {
  max_frames : Z;
  current_frame : Z;
  bar_x : Z       (* the x last given to [timeline_bar.setPos] *)
}.

(** [self.frame_width = 10] in [__init__]; no method assigns it again. *)
Definition frame_width : Z := 10.

Definition init (max_frames : Z) : t := mk max_frames 0 0.

(** [on_bar_move(x_pos)]; the value is the frame that
    [frame_changed.emit] carries. *)
Definition on_bar_move (x_pos : float) : M t Z :=
  q ← lift (Py.div_float_int x_pos frame_width);
  frame ← lift (Py.int q);
  self ← get;
  let frame := Z.max 0 (Z.min frame (max_frames self - 1)) in
  modify (fun self => mk (max_frames self) frame (bar_x self));;
  mret frame.

Definition set_frame (frame : Z) : M t unit :=
  modify (fun self => mk (max_frames self) frame (bar_x self));;
  let x := frame * frame_width in
  modify (fun self => mk (max_frames self) (current_frame self) x).

End Timeline.

(** ** The document read by [json.load] *)

(** One entry of ["objects"]; an absent key is [None].  Keyframe keys are
    the strings JSON has, keyframe values are taken well-formed. *)
Record ObjData : Type := mkObjData {
  od_x : option float;
  od_y : option float;
  od_size : option float;
  od_color : option string;
  od_brightness : option float;
  od_keyframes : option (list (string * State))
}.

Record Document : Type := mkDocument {
  doc_max_frames : option Z;
  doc_fps : option Z;
  doc_objects : option (list ObjData)
}.

(** [d[key]] and [d.get(key, default)] on a field of the document. *)
Definition require {A} (key : string) (field : option A) : res A :=
  match field with
  | Some v => inr v
  | None => inl (KeyError key)
  end.

(** [{int(k): v for k, v in items}]: later entries overwrite earlier
    ones with the same integer key. *)
Fixpoint keyframes_of_items (items : list (string * State)) (acc : gmap Z State)
  : res (gmap Z State) :=
  match items with
  | [] => inr acc
  | (k, v) :: rest =>
      frame ← Py.int_of_str k;
      keyframes_of_items rest (<[frame := v]> acc)
  end.

(** ** The main window *)

(** What the user is told after a load. *)
Inductive message : Type :=
  | Success
  | Failed_to_load (cause : exn).

Module AnimationSoftware.

Record t : Type := mk {
  current_frame : Z;
  max_frames : Z;
  is_playing : bool;
  fps : Z;
  canvas : Canvas.t;
  timeline : Timeline.t
}.

Definition with_current_frame (f : Z) (a : t) : t :=
  mk f (max_frames a) (is_playing a) (fps a) (canvas a) (timeline a).
Definition with_max_frames (m : Z) (a : t) : t :=
  mk (current_frame a) m (is_playing a) (fps a) (canvas a) (timeline a).
Definition with_is_playing (p : bool) (a : t) : t :=
  mk (current_frame a) (max_frames a) p (fps a) (canvas a) (timeline a).
Definition with_fps (n : Z) (a : t) : t :=
  mk (current_frame a) (max_frames a) (is_playing a) n (canvas a) (timeline a).
Definition with_canvas (c : Canvas.t) (a : t) : t :=
  mk (current_frame a) (max_frames a) (is_playing a) (fps a) c (timeline a).
Definition with_timeline (tl : Timeline.t) (a : t) : t :=
  mk (current_frame a) (max_frames a) (is_playing a) (fps a) (canvas a) tl.

(** A [Timeline] method called on [self.timeline]. *)
Definition on_timeline {A} (m : M Timeline.t A) : M t A := fun a =>
  let '(r, tl) := m (timeline a) in (r, with_timeline tl a).

Definition init : t := mk 0 300 false 30 Canvas.init (Timeline.init 300).

Definition add_object : M t unit :=
  modify (fun a => with_canvas (Canvas.add_object (canvas a)) a).

(** The body of the loop of [update_objects_for_frame]. *)
Definition update_object_for_frame (frame : Z) : M AnimatedObject.t unit :=
  obj ← get;
  state ← lift (AnimatedObject.get_interpolated_state obj frame);
  match state with
  | Some state =>
      AnimatedObject.setPos (kf_x state) (kf_y state);;
      AnimatedObject.set_brightness (kf_brightness state)
  | None => mret tt
  end.

Definition update_objects_for_frame (frame : Z) : M t unit := fun a =>
  let '(r, objs) :=
    for_each (update_object_for_frame frame) (Canvas.objects (canvas a)) in
  (r, with_canvas (Canvas.mk objs) a).

Definition goto_frame (frame : Z) : M t unit :=
  modify (with_current_frame frame);;
  on_timeline (Timeline.set_frame frame);;
  update_objects_for_frame frame.

Definition on_timeline_frame_changed (frame : Z) : M t unit :=
  modify (with_current_frame frame);;
  update_objects_for_frame frame.

(** Dragging the red bar to [x_pos]: [TimelineBar.itemChange] calls
    [on_bar_move], whose [frame_changed] signal is connected to
    [on_timeline_frame_changed]. *)
Definition bar_dragged (x_pos : float) : M t unit :=
  frame ← on_timeline (Timeline.on_bar_move x_pos);
  on_timeline_frame_changed frame.

Definition stop_playback : M t unit :=
  modify (with_is_playing false);;
  goto_frame 0.

Definition next_frame : M t unit :=
  modify (fun a => with_current_frame (current_frame a + 1) a);;
  self ← get;
  (if decide (current_frame self >= max_frames self)
   then modify (with_current_frame 0)
   else mret tt);;
  self ← get;
  goto_frame (current_frame self).

(** One iteration of [for obj_data in data.get('objects', [])]. *)
Definition load_object (QColor_of_name : string -> QColor) (obj_data : ObjData)
  : M t unit :=
  x ← lift (require "x" (od_x obj_data));
  y ← lift (require "y" (od_y obj_data));
  size ← lift (require "size" (od_size obj_data));
  let obj := AnimatedObject.init x y size in
  color ← lift (require "color" (od_color obj_data));
  obj ← on_local (AnimatedObject.set_base_color (QColor_of_name color)) obj;
  let obj := AnimatedObject.with_brightness
               (default 100%float (od_brightness obj_data)) obj in
  kfs ← lift (keyframes_of_items (default [] (od_keyframes obj_data)) ∅);
  let obj := AnimatedObject.with_keyframes kfs obj in
  modify (fun a => with_canvas (Canvas.mk (Canvas.objects (canvas a) ++ [obj])) a).

Fixpoint load_objects (QColor_of_name : string -> QColor) (l : list ObjData)
  : M t unit :=
  match l with
  | [] => mret tt
  | obj_data :: rest =>
      load_object QColor_of_name obj_data;;
      load_objects QColor_of_name rest
  end.

(** The [try] block of [load_animation], from [json.load] on;
    [file] is what [open] and [json.load] give, or the exception they
    raise. *)
Definition load_animation_try (QColor_of_name : string -> QColor)
    (file : res Document) : M t unit :=
  data ← lift file;
  modify (fun a => with_canvas (Canvas.clear_all (canvas a)) a);;
  modify (with_max_frames (default 300 (doc_max_frames data)));;
  modify (with_fps (default 30 (doc_fps data)));;
  load_objects QColor_of_name (default [] (doc_objects data));;
  goto_frame 0.

(** [load_animation] once a file name was chosen: the message box shown
    and the window afterwards. *)
Definition load_animation (QColor_of_name : string -> QColor)
    (file : res Document) (self : t) : message * t :=
  match load_animation_try QColor_of_name file self with
  | (inr _, self') => (Success, self')
  | (inl e, self') => (Failed_to_load e, self')
  end.

End AnimationSoftware.

(** * Vocabulary of the statements *)

(** ** Keys of a store *)

(** [b] is the greatest key below [f], [a] the smallest key above it. *)
Definition greatest_key_below (d : gmap Z State) (f b : Z) : Prop :=
  is_Some (d !! b) ∧ b < f ∧ ∀ k, is_Some (d !! k) → k < f → k <= b.

Definition smallest_key_above (d : gmap Z State) (f a : Z) : Prop :=
  is_Some (d !! a) ∧ f < a ∧ ∀ k, is_Some (d !! k) → f < k → a <= k.

Definition minimum_key (d : gmap Z State) (k : Z) : Prop :=
  is_Some (d !! k) ∧ ∀ k', is_Some (d !! k') → k <= k'.

Definition maximum_key (d : gmap Z State) (k : Z) : Prop :=
  is_Some (d !! k) ∧ ∀ k', is_Some (d !! k') → k' <= k.

(** The linear blend of one field, as line 73 to 75 of the source write
    it. *)
Definition lerp (before after t : float) : float :=
  (before + (after - before) * t)%float.

(** ** Floats *)

(** [math.isfinite]: neither an infinity nor a NaN. *)
Definition isfinite (x : float) : bool :=
  match Prim2SF x with
  | S754_zero _ | S754_finite _ _ _ => true
  | _ => false
  end.

(** A float of sign [s] whose magnitude is at most [2 ^ E]. *)
Definition SF_within (s : bool) (E : Z) (r : spec_float) : Prop :=
  r = S754_zero s ∨
  ∃ m e, r = S754_finite s m e ∧ e <= E ∧ Z.pos m <= 2 ^ (E - e).

(** The largest brightness the statements about [set_brightness] cover:
    [2 ^ 1000], about [1.07e301]. *)
Definition brightness_bound : float := 0x1p1000%float.

(** ** The pixel-to-frame mapping as the specification words it *)



(** ** Entries of a document *)




(** ** Checks run over the 256 values of a colour channel *)

(** The float of a channel value is exact: not negative, below [2 ^ 8],
    with an exponent that is not positive. *)
Definition channel_float_ok (c : Z) : bool :=
  match Py.float_of_int c with
  | inr cf =>
      match Prim2SF cf with
      | S754_zero false => true
      | S754_finite false m e => (e <=? 0) && (Z.pos m <=? 2 ^ (8 - e))
      | _ => false
      end
  | inl _ => false
  end.

(** At brightness 100 a channel keeps its value. *)
Definition channel_kept_at_100 (c : Z) : bool :=
  match AnimatedObject.scaled c (100 / 100)%float with
  | inr n => n =? c
  | inl _ => false
  end.

(** ** Values the examples run on *)

(** The object of the specification's example: (0, 0, 100) at frame 0 and
    (100, 0, 100) at frame 10. *)
Definition example_object : AnimatedObject.t :=
  AnimatedObject.with_keyframes
    (<[0 := mkState 0 0 100]> {[10 := mkState 100 0 100]})
    (AnimatedObject.init 400 300 50).

(** A window with one object on the canvas. *)
Definition example_window : AnimationSoftware.t :=
  (AnimationSoftware.add_object AnimationSoftware.init).2.

(** A colour reader that knows no name: every string gives the invalid
    colour, whose channels read 0. *)
Definition no_color (name : string) : QColor := mkQColor 0 0 0.


(** A document of 100 frames without objects. *)
Definition document_100_frames : Document :=
  mkDocument (Some 100) None (Some []).

(** [2 ^ 1023], about [8.99e307]: a finite, positive brightness. *)
Definition huge_brightness : float := 0x1p1023%float.

(** * Saving and playback *)





(** ** Colour names of the form [#rrggbb] *)

(** [QColor.name()] on a colour with channels in 0..255, and [QColor(s)]
    on the strings of that form; any other string gives the invalid
    colour, whose channels read 0. *)
Definition hex_digit (n : Z) : ascii :=
  match n with
  | 0 => "0" | 1 => "1" | 2 => "2" | 3 => "3" | 4 => "4" | 5 => "5"
  | 6 => "6" | 7 => "7" | 8 => "8" | 9 => "9" | 10 => "a" | 11 => "b"
  | 12 => "c" | 13 => "d" | 14 => "e" | _ => "f"
  end%char.

Definition hex_value (c : ascii) : option Z :=
  let n := Z.of_nat (nat_of_ascii c) in
  if decide (48 <= n <= 57) then Some (n - 48)
  else if decide (97 <= n <= 102) then Some (n - 87)
  else if decide (65 <= n <= 70) then Some (n - 55)
  else None.

Definition hex_pair (hi lo : ascii) : option Z :=
  h ← hex_value hi; l ← hex_value lo; Some (16 * h + l).

Definition QColor_name (c : QColor) : string :=
  String "#"
    (String (hex_digit (red c / 16)) (String (hex_digit (red c mod 16))
    (String (hex_digit (green c / 16)) (String (hex_digit (green c mod 16))
    (String (hex_digit (blue c / 16)) (String (hex_digit (blue c mod 16))
     EmptyString)))))).

Definition QColor_of_hex (s : string) : QColor :=
  match s with
  | String "#" (String r1 (String r0 (String g1 (String g0
      (String b1 (String b0 EmptyString)))))) =>
      match hex_pair r1 r0, hex_pair g1 g0, hex_pair b1 b0 with
      | Some r, Some g, Some b => mkQColor r g b
      | _, _, _ => mkQColor 0 0 0
      end
  | _ => mkQColor 0 0 0
  end.

(** The round trip of one channel through its two hexadecimal digits. *)
Definition hex_round_trip (c : Z) : bool :=
  match hex_pair (hex_digit (c / 16)) (hex_digit (c mod 16)) with
  | Some n => n =? c
  | None => false
  end.

(** At brightness 0 a channel is 0. *)
Definition channel_black_at_0 (c : Z) : bool :=
  match AnimatedObject.scaled c (0 / 100)%float with
  | inr n => n =? 0
  | inl _ => false
  end.

(** What a frame leaves alone in one object. *)
Definition same_authored (o o' : AnimatedObject.t) : Prop :=
  AnimatedObject.keyframes o' = AnimatedObject.keyframes o ∧
  AnimatedObject.base_color o' = AnimatedObject.base_color o ∧
  AnimatedObject.size o' = AnimatedObject.size o.


(** An object with one keyframe, at frame 0, of brightness 50. *)
Definition dimmed_object : AnimatedObject.t :=
  AnimatedObject.with_keyframes {[0 := mkState 10 20 50]}
    (AnimatedObject.init 400 300 50).


(** [example_object] with one more keyframe, at frame 50. *)
Definition example_object_more : AnimatedObject.t :=
  AnimatedObject.with_keyframes
    (<[50 := mkState 7 7 7]> (AnimatedObject.keyframes example_object))
    example_object.


(** * Properties *)

(** ** Lists of keys *)

Section Keys.
Implicit Types (d : gmap Z State) (l : list Z) (k f : Z).

Lemma elem_of_keys d k : k ∈ keys d ↔ is_Some (d !! k).
Proof.
  unfold keys. rewrite list_elem_of_fmap. split.
  - intros [[k' v] [-> Hin]]. apply elem_of_map_to_list in Hin. by exists v.
  - intros [v Hv]. exists (k, v). split; [done|]. by apply elem_of_map_to_list.
Qed.

Lemma keys_nil d : keys d = [] ↔ d = ∅.
Proof.
  unfold keys. rewrite <- map_to_list_empty_iff. split.
  - apply fmap_nil_inv.
  - by intros ->.
Qed.

Lemma foldl_min_spec l k :
  foldl Z.min k l ∈ k :: l ∧ ∀ x, x ∈ k :: l → foldl Z.min k l <= x.
Proof.
  revert k. induction l as [|a l IH]; intros k; simpl.
  - split; [left|]. intros x Hx. apply list_elem_of_singleton in Hx. lia.
  - destruct (IH (Z.min k a)) as [Hin Hle]. split.
    + apply elem_of_cons in Hin as [Heq|Hin].
      * rewrite Heq. destruct (Z.min_spec k a) as [[_ ->]|[_ ->]];
          [left | right; left].
      * right; by right.
    + intros x Hx. apply elem_of_cons in Hx as [->|Hx].
      * specialize (Hle (Z.min k a) ltac:(left)). lia.
      * apply elem_of_cons in Hx as [->|Hx].
        -- specialize (Hle (Z.min k a) ltac:(left)). lia.
        -- apply Hle. by right.
Qed.

Lemma foldl_max_spec l k :
  foldl Z.max k l ∈ k :: l ∧ ∀ x, x ∈ k :: l → x <= foldl Z.max k l.
Proof.
  revert k. induction l as [|a l IH]; intros k; simpl.
  - split; [left|]. intros x Hx. apply list_elem_of_singleton in Hx. lia.
  - destruct (IH (Z.max k a)) as [Hin Hle]. split.
    + apply elem_of_cons in Hin as [Heq|Hin].
      * rewrite Heq. destruct (Z.max_spec k a) as [[_ ->]|[_ ->]];
          [right; left | left].
      * right; by right.
    + intros x Hx. apply elem_of_cons in Hx as [->|Hx].
      * specialize (Hle (Z.max k a) ltac:(left)). lia.
      * apply elem_of_cons in Hx as [->|Hx].
        -- specialize (Hle (Z.max k a) ltac:(left)). lia.
        -- apply Hle. by right.
Qed.

(** [min] and [max] return on a non-empty list, and return the least
    and the greatest element. *)
Lemma Py_min_least l m :
  m ∈ l → (∀ x, x ∈ l → m <= x) → Py.min l = inr m.
Proof.
  destruct l as [|k l]; [by intros ?%elem_of_nil|]. intros Hm Hle. simpl.
  destruct (foldl_min_spec l k) as [Hin Hmin].
  f_equal. specialize (Hle _ Hin). specialize (Hmin _ Hm). lia.
Qed.

Lemma Py_max_greatest l m :
  m ∈ l → (∀ x, x ∈ l → x <= m) → Py.max l = inr m.
Proof.
  destruct l as [|k l]; [by intros ?%elem_of_nil|]. intros Hm Hle. simpl.
  destruct (foldl_max_spec l k) as [Hin Hmax].
  f_equal. specialize (Hle _ Hin). specialize (Hmax _ Hm). lia.
Qed.

Lemma list_has_least l k : k ∈ l → ∃ m, m ∈ l ∧ ∀ x, x ∈ l → m <= x.
Proof.
  destruct l as [|k0 l]; [by intros ?%elem_of_nil|]. intros _.
  exists (foldl Z.min k0 l). apply foldl_min_spec.
Qed.

Lemma list_has_greatest l k : k ∈ l → ∃ m, m ∈ l ∧ ∀ x, x ∈ l → x <= m.
Proof.
  destruct l as [|k0 l]; [by intros ?%elem_of_nil|]. intros _.
  exists (foldl Z.max k0 l). apply foldl_max_spec.
Qed.

(** A store that is not empty has a minimum and a maximum key; a frame
    with a key below it has a greatest such key, and likewise above. *)
Lemma minimum_key_exists d : d ≠ ∅ → ∃ k, minimum_key d k.
Proof.
  intros Hne. destruct (keys d) as [|k0 ks] eqn:E; [by apply keys_nil in E|].
  destruct (list_has_least (keys d) k0) as (m & Hm & Hle); [rewrite E; left|].
  exists m. split; [by apply elem_of_keys|].
  intros k' Hk'. by apply Hle, elem_of_keys.
Qed.

Lemma maximum_key_exists d : d ≠ ∅ → ∃ k, maximum_key d k.
Proof.
  intros Hne. destruct (keys d) as [|k0 ks] eqn:E; [by apply keys_nil in E|].
  destruct (list_has_greatest (keys d) k0) as (m & Hm & Hle); [rewrite E; left|].
  exists m. split; [by apply elem_of_keys|].
  intros k' Hk'. by apply Hle, elem_of_keys.
Qed.

Lemma greatest_key_below_exists d f k :
  is_Some (d !! k) → k < f → ∃ b, greatest_key_below d f b.
Proof.
  intros Hk Hlt.
  destruct (list_has_greatest (filter (λ x, x < f) (keys d)) k)
    as (m & [Hm Hin%elem_of_keys]%list_elem_of_filter & Hle).
  { apply list_elem_of_filter. split; [done|]. by apply elem_of_keys. }
  exists m. split; [done|]. split; [done|]. intros x Hx Hxf.
  apply Hle, list_elem_of_filter. split; [done|]. by apply elem_of_keys.
Qed.

Lemma smallest_key_above_exists d f k :
  is_Some (d !! k) → f < k → ∃ a, smallest_key_above d f a.
Proof.
  intros Hk Hlt.
  destruct (list_has_least (filter (λ x, f < x) (keys d)) k)
    as (m & [Hm Hin%elem_of_keys]%list_elem_of_filter & Hle).
  { apply list_elem_of_filter. split; [done|]. by apply elem_of_keys. }
  exists m. split; [done|]. split; [done|]. intros x Hx Hxf.
  apply Hle, list_elem_of_filter. split; [done|]. by apply elem_of_keys.
Qed.

Lemma getitem_Some d k v : d !! k = Some v → getitem d k = inr v.
Proof. unfold getitem. by intros ->. Qed.

End Keys.

(** ** The loop over the objects *)

Section ForEach.
Context {O : Type} (body : M O unit).

(** An object on which the body does nothing is the same after the loop,
    wherever the loop stops. *)
Lemma for_each_fixed objs i o :
  objs !! i = Some o → (body o).2 = o → (for_each body objs).2 !! i = Some o.
Proof.
  revert i. induction objs as [|o0 objs IH]; intros i Hi Hfix; [done|].
  simpl. destruct i as [|i]; simpl in Hi.
  - injection Hi as ->. destruct (body o) as [[e|[]] o'] eqn:Hb;
      simpl in Hfix; subst o'; simpl; [done|].
    by destruct (for_each body objs).
  - destruct (body o0) as [[e|[]] o'] eqn:Hb; simpl; [done|].
    specialize (IH i Hi Hfix). by destruct (for_each body objs).
Qed.

End ForEach.

(** ** Keyframe store and interpolation *)

Section Interpolation.
Import AnimatedObject.
Implicit Types (self : AnimatedObject.t) (f k a b : Z) (s : State).

Lemma keys_cons_of_lookup self k s :
  keyframes self !! k = Some s → ∃ k0 ks, keys (keyframes self) = k0 :: ks.
Proof.
  intros Hk. destruct (keys (keyframes self)) as [|k0 ks] eqn:E; [|by eauto].
  apply keys_nil in E. rewrite E in Hk. by rewrite lookup_empty in Hk.
Qed.

Lemma before_first self f k s :
  keyframes self !! k = Some s → minimum_key (keyframes self) k → f < k →
  get_interpolated_state self f = inr (Some s).
Proof.
  intros Hk [_ Hmin] Hf. unfold get_interpolated_state.
  destruct (keys_cons_of_lookup _ _ _ Hk) as (k0 & ks & E).
  rewrite E, <- E.
  destruct (keyframes self !! f) as [sf|] eqn:Hf'.
  { specialize (Hmin f ltac:(eauto)). lia. }
  destruct (filter (λ f0, f0 < f) (keys (keyframes self))) as [|b0 bs] eqn:Hb.
  - rewrite (Py_min_least _ k).
    + simpl. by rewrite (getitem_Some _ _ _ Hk).
    + apply elem_of_keys. eauto.
    + intros x Hx%elem_of_keys. by apply Hmin.
  - assert (b0 ∈ filter (λ f0, f0 < f) (keys (keyframes self))) as Hin
      by (rewrite Hb; left).
    apply list_elem_of_filter in Hin as [Hlt Hin%elem_of_keys].
    specialize (Hmin _ Hin). lia.
Qed.

Lemma after_last self f k s :
  keyframes self !! k = Some s → maximum_key (keyframes self) k → k < f →
  get_interpolated_state self f = inr (Some s).
Proof.
  intros Hk [_ Hmax] Hf. unfold get_interpolated_state.
  destruct (keys_cons_of_lookup _ _ _ Hk) as (k0 & ks & E).
  rewrite E, <- E.
  destruct (keyframes self !! f) as [sf|] eqn:Hf'.
  { specialize (Hmax f ltac:(eauto)). lia. }
  destruct (filter (λ f0, f0 < f) (keys (keyframes self))) as [|b0 bs] eqn:Hb.
  { assert (k ∈ filter (λ f0, f0 < f) (keys (keyframes self))) as Hin.
    { apply list_elem_of_filter. split; [done|]. apply elem_of_keys. eauto. }
    rewrite Hb in Hin. by apply elem_of_nil in Hin. }
  destruct (filter (λ f0, f0 > f) (keys (keyframes self))) as [|a0 as_] eqn:Ha.
  - rewrite (Py_max_greatest _ k).
    + simpl. by rewrite (getitem_Some _ _ _ Hk).
    + apply elem_of_keys. eauto.
    + intros x Hx%elem_of_keys. by apply Hmax.
  - assert (a0 ∈ filter (λ f0, f0 > f) (keys (keyframes self))) as Hin
      by (rewrite Ha; left).
    apply list_elem_of_filter in Hin as [Hlt Hin%elem_of_keys].
    specialize (Hmax _ Hin). lia.
Qed.

(** C2. On a frame that is a key of the store, [get_interpolated_state]
    returns the state stored at that key, as it is: no arithmetic is
    applied to it. *)
Theorem get_interpolated_state_exact self f s :
  keyframes self !! f = Some s →
  get_interpolated_state self f = inr (Some s).
Proof.
  intros Hf. unfold get_interpolated_state.
  destruct (keys_cons_of_lookup _ _ _ Hf) as (k0 & ks & ->).
  by rewrite Hf.
Qed.

(** C3. On a store that is not empty, a frame below every key gets the
    state stored at the minimum key and a frame above every key the state
    stored at the maximum key: the value is held, not extrapolated. *)
Theorem get_interpolated_state_clamp self :
  keyframes self ≠ ∅ →
  ∃ k_min s_min k_max s_max,
    keyframes self !! k_min = Some s_min ∧ minimum_key (keyframes self) k_min ∧
    keyframes self !! k_max = Some s_max ∧ maximum_key (keyframes self) k_max ∧
    ∀ f,
      ((∀ k, is_Some (keyframes self !! k) → f < k) →
         get_interpolated_state self f = inr (Some s_min)) ∧
      ((∀ k, is_Some (keyframes self !! k) → k < f) →
         get_interpolated_state self f = inr (Some s_max)).
Proof.
  intros Hne.
  destruct (minimum_key_exists _ Hne) as (k_min & [s_min Hmin] & Hleast).
  destruct (maximum_key_exists _ Hne) as (k_max & [s_max Hmax] & Hgreatest).
  exists k_min, s_min, k_max, s_max.
  split; [done|]. split; [by split; [eexists|]|].
  split; [done|]. split; [by split; [eexists|]|].
  intros f. split; intros Hf.
  - apply (before_first self f k_min s_min); [done|by split; [eexists|]|].
    apply Hf. by eexists.
  - apply (after_last self f k_max s_max); [done|by split; [eexists|]|].
    apply Hf. by eexists.
Qed.

Lemma get_interpolated_state_empty self f :
  keyframes self = ∅ → get_interpolated_state self f = inr None.
Proof.
  intros He. unfold get_interpolated_state.
  by rewrite (proj2 (keys_nil _) He).
Qed.

(** C10. Adding a keyframe at a frame that has none, whatever the
    current position and brightness, and removing it again gives back
    the object with the store it had. *)
Theorem remove_add_keyframe self f :
  keyframes self !! f = None →
  remove_keyframe f (add_keyframe f self) = self
  ∧ keyframes (remove_keyframe f (add_keyframe f self)) = keyframes self.
Proof.
  intros Hf.
  assert (remove_keyframe f (add_keyframe f self) = self) as E.
  { destruct self as [p sz bc br kfs bri]. simpl in Hf.
    unfold remove_keyframe, add_keyframe, with_keyframes. simpl.
    rewrite lookup_insert_eq. f_equal. by apply delete_insert_id. }
  by rewrite E.
Qed.

End Interpolation.
(** ** Rounding of binary64 results *)

Section FloatFacts.

Lemma digits2_pos_size p : digits2_pos p = Pos.size p.
Proof. induction p; simpl; congruence. Qed.

Lemma Zdigits2_log2 m : 0 < m → Zdigits2 m = Z.log2 m + 1.
Proof.
  destruct m as [|p|p]; try lia. intros _. simpl. rewrite digits2_pos_size.
  destruct p; simpl; lia.
Qed.

Lemma Zdigits2_nonneg m : 0 <= Zdigits2 m.
Proof. destruct m; simpl; lia. Qed.

Lemma Zdigits2_le_pow2 m k : 0 <= m <= 2 ^ k → 0 <= k → Zdigits2 m <= k + 1.
Proof.
  intros [Hm Hk] Hk0. destruct (decide (m = 0)) as [->|]; [simpl; lia|].
  rewrite Zdigits2_log2 by lia.
  assert (Z.log2 m < k + 1); [|lia].
  apply Z.log2_lt_pow2; [lia|].
  rewrite Z.pow_add_r by lia. lia.
Qed.

Lemma Zdigits2_lt_pow2 m k : 0 <= m < 2 ^ k → 0 <= k → Zdigits2 m <= k.
Proof.
  intros [Hm Hk] Hk0. destruct (decide (m = 0)) as [->|]; [simpl; lia|].
  rewrite Zdigits2_log2 by lia.
  assert (Z.log2 m < k); [|lia].
  apply Z.log2_lt_pow2; lia.
Qed.

Lemma Zdigits2_bounds m : 0 < m → 2 ^ (Zdigits2 m - 1) <= m < 2 ^ Zdigits2 m.
Proof.
  intros Hm. rewrite Zdigits2_log2 by done.
  replace (Z.log2 m + 1 - 1) with (Z.log2 m) by lia.
  pose proof (Z.log2_spec m Hm). rewrite <- Z.add_1_r in H. lia.
Qed.

Lemma iter_pos_nat {A} (f : A → A) p x :
  SpecFloat.iter_pos f p x = Nat.iter (Pos.to_nat p) f x.
Proof.
  revert x. induction p as [p IH|p IH|]; intros x; cbn [SpecFloat.iter_pos].
  - rewrite !IH, Pos2Nat.inj_xI, Nat.iter_succ_r.
    replace (2 * Pos.to_nat p)%nat with (Pos.to_nat p + Pos.to_nat p)%nat by lia.
    by rewrite Nat.iter_add.
  - rewrite !IH, Pos2Nat.inj_xO.
    replace (2 * Pos.to_nat p)%nat with (Pos.to_nat p + Pos.to_nat p)%nat by lia.
    by rewrite Nat.iter_add.
  - done.
Qed.

Lemma shr_1_m r : 0 <= shr_m r → shr_m (shr_1 r) = shr_m r / 2.
Proof.
  destruct r as [m r s]. simpl. intros Hm.
  destruct m as [|[p|p|]|p]; simpl; try lia.
  all: first [apply Z.div_unique with 1; lia | apply Z.div_unique with 0; lia].
Qed.

Lemma shr_m_iter n r :
  0 <= shr_m r → shr_m (Nat.iter n shr_1 r) = shr_m r / 2 ^ Z.of_nat n.
Proof.
  intros Hm. induction n as [|n IH].
  - simpl. by rewrite Z.div_1_r.
  - rewrite Nat2Z.inj_succ, Z.pow_succ_r by lia. simpl.
    rewrite shr_1_m.
    + rewrite IH. rewrite Z.div_div by lia. f_equal. lia.
    + rewrite IH. apply Z.div_pos; lia.
Qed.

Lemma shr_record_of_loc_m m l : shr_m (shr_record_of_loc m l) = m.
Proof. by destruct l as [|[]]. Qed.

(** [shr] divides the mantissa by [2 ^ n] when [n] is positive. *)
Lemma shr_spec m l e n :
  0 <= m →
  shr_m (shr (shr_record_of_loc m l) e n).1 = m / 2 ^ Z.max 0 n ∧
  (shr (shr_record_of_loc m l) e n).2 = e + Z.max 0 n.
Proof.
  intros Hm. unfold shr. destruct n as [|p|p]; simpl.
  - rewrite shr_record_of_loc_m, Z.div_1_r. lia.
  - rewrite iter_pos_nat, shr_m_iter by by rewrite shr_record_of_loc_m.
    rewrite shr_record_of_loc_m, positive_nat_Z.
    split; [|lia]. repeat f_equal; lia.
  - rewrite shr_record_of_loc_m, Z.div_1_r. lia.
Qed.

Lemma round_nearest_even_bounds m l :
  m <= round_nearest_even m l <= m + 1.
Proof.
  unfold round_nearest_even. destruct l as [|[]]; try lia.
  destruct (Z.even m); lia.
Qed.

Lemma shift_bound m k j :
  0 <= m < 2 ^ k → 0 <= k → 0 <= j → m / 2 ^ j + 1 <= 2 ^ Z.max 0 (k - j).
Proof.
  intros [Hm Hk] Hk0 Hj. destruct (decide (j <= k)).
  - rewrite Z.max_r by lia.
    assert (m / 2 ^ j < 2 ^ (k - j)); [|lia].
    apply Z.div_lt_upper_bound; [lia|].
    rewrite <- Z.pow_add_r by lia. by replace (j + (k - j)) with k by lia.
  - rewrite Z.max_l by lia. rewrite Z.div_small; [simpl; lia|].
    split; [done|]. eapply Z.lt_le_trans; [done|].
    apply Z.pow_le_mono_r; lia.
Qed.

Lemma fexp_eq x : fexp prec emax x = Z.max (x - 53) (-1074).
Proof. reflexivity. Qed.

(** Rounding a mantissa below [2 ^ k] at exponent [e] does not overflow
    as long as [2 ^ (k + e)] is below the largest power of two. *)
Lemma binary_round_aux_within s m e l k E :
  0 <= m < 2 ^ k → 0 <= k → e <= 971 → k + e <= E → -1074 <= E <= 1023 →
  SF_within s E (binary_round_aux prec emax s m e l).
Proof.
  intros Hm Hk He HE HE'. unfold binary_round_aux, shr_fexp.
  set (n1 := fexp prec emax (Zdigits2 m + e) - e).
  destruct (shr_spec m l e n1 ltac:(lia)) as [Hm1 He1].
  destruct (shr (shr_record_of_loc m l) e n1) as [mrs1 e1]. simpl in Hm1, He1.
  set (m1r := round_nearest_even (shr_m mrs1) (loc_of_shr_record mrs1)).
  pose proof (round_nearest_even_bounds (shr_m mrs1) (loc_of_shr_record mrs1))
    as Hr. fold m1r in Hr.
  pose proof (Zdigits2_lt_pow2 m k Hm Hk) as Hd.
  pose proof (Zdigits2_nonneg m) as Hd0.
  assert (Hn1 : Z.max 0 n1 = e1 - e) by lia.
  assert (He1' : e1 <= 971 ∧ e1 <= E).
  { subst n1. rewrite fexp_eq in Hn1. lia. }
  assert (Hm1' : 0 <= shr_m mrs1).
  { rewrite Hm1. apply Z.div_pos; lia. }
  assert (Hm1r : 0 <= m1r <= 2 ^ (E - e1)).
  { split; [lia|].
    pose proof (shift_bound m k (Z.max 0 n1) Hm Hk ltac:(lia)) as Hs.
    rewrite <- Hm1 in Hs. etrans; [|apply Z.pow_le_mono_r with (b := Z.max 0 (k - Z.max 0 n1)); lia].
    lia. }
  set (n2 := fexp prec emax (Zdigits2 m1r + e1) - e1).
  destruct (shr_spec m1r loc_Exact e1 n2 ltac:(lia)) as [Hm2 He2].
  destruct (shr (shr_record_of_loc m1r loc_Exact) e1 n2) as [mrs2 e2].
  simpl in Hm2, He2.
  pose proof (Zdigits2_le_pow2 m1r (E - e1) Hm1r ltac:(lia)) as Hd2.
  pose proof (Zdigits2_nonneg m1r) as Hd20.
  assert (Hn2 : Z.max 0 n2 = e2 - e1) by lia.
  assert (He2' : e2 <= 971 ∧ e2 <= E).
  { subst n2. rewrite fexp_eq in Hn2. lia. }
  assert (Hm2' : 0 <= shr_m mrs2 <= 2 ^ (E - e2)).
  { rewrite Hm2, Hn2. split; [apply Z.div_pos; lia|].
    replace (E - e2) with ((E - e1) - (e2 - e1)) by lia.
    assert (0 <= e2 - e1 <= E - e1) as Hrange by lia.
    rewrite (Z.pow_sub_r 2 (E - e1) (e2 - e1)); [|lia|exact Hrange].
    apply Z.div_le_mono; [|lia]. apply Z.pow_pos_nonneg; lia. }
  destruct (shr_m mrs2) as [|p|p] eqn:Hp; [by left| |lia].
  right. exists p, e2.
  destruct (Z.leb_spec e2 (emax - prec)) as [_|Hbad].
  - split; [done|]. lia.
  - change (emax - prec) with 971 in Hbad. lia.
Qed.

Lemma SFdiv_core_bound mx ex my ey q e' l :
  SFdiv_core_binary prec emax (Z.pos mx) ex (Z.pos my) ey = (q, e', l) →
  let D := Zdigits2 (Z.pos mx) + ex - (Zdigits2 (Z.pos my) + ey) in
  e' <= Z.max (D - 53) (-1074) ∧
  ∃ k, 0 <= k ∧ 0 <= q < 2 ^ k ∧ k + e' <= Z.max e' (D + 1).
Proof.
  unfold SFdiv_core_binary.
  set (d1 := Zdigits2 (Z.pos mx)). set (d2 := Zdigits2 (Z.pos my)).
  rewrite fexp_eq.
  set (e0 := Z.min (Z.max (d1 + ex - (d2 + ey) - 53) (-1074)) (ex - ey)).
  set (s := ex - ey - e0).
  set (m' := match s with Z.pos _ => Z.shiftl (Z.pos mx) s | 0 => Z.pos mx | Z.neg _ => 0 end).
  assert (Hs : 0 <= s) by lia.
  assert (Hm' : m' = Z.pos mx * 2 ^ s).
  { subst m'. destruct s as [|p|p] eqn:Es; [lia| |lia].
    by rewrite Z.shiftl_mul_pow2. }
  pose proof (Zdigits2_bounds (Z.pos mx) ltac:(lia)) as [_ Hx]. fold d1 in Hx.
  pose proof (Zdigits2_bounds (Z.pos my) ltac:(lia)) as [Hy _]. fold d2 in Hy.
  assert (Hd1 : 0 < d1) by (subst d1; simpl; lia).
  assert (Hd2 : 0 < d2) by (subst d2; simpl; lia).
  assert (Hm'x : 0 <= m' < 2 ^ (d1 + s)).
  { rewrite Hm', Z.pow_add_r by lia. split; [lia|].
    apply Z.mul_lt_mono_pos_r; [apply Z.pow_pos_nonneg; lia|done]. }
  destruct (Z.div_eucl m' (Z.pos my)) as [q0 r0] eqn:Hdiv.
  intros [= <- <- _]. cbv zeta. set (D := d1 + ex - (d2 + ey)).
  assert (Hq : q0 = m' / Z.pos my) by (unfold Z.div; by rewrite Hdiv).
  split; [subst e0 D; lia|].
  destruct (decide (0 <= d1 + s - d2 + 1)) as [Ht|Ht].
  - exists (d1 + s - d2 + 1). split; [done|]. split; [|subst D s; lia].
    rewrite Hq. split; [apply Z.div_pos; lia|].
    apply Z.div_lt_upper_bound; [lia|].
    eapply Z.lt_le_trans; [apply Hm'x|].
    assert (2 ^ (d1 + s) = 2 ^ (d2 - 1) * 2 ^ (d1 + s - d2 + 1)) as ->.
    { rewrite <- Z.pow_add_r by lia. f_equal. lia. }
    apply Z.mul_le_mono_nonneg_r; [apply Z.pow_nonneg; lia|done].
  - exists 0. split; [done|]. split; [|lia].
    rewrite Hq, Z.div_small; [simpl; lia|].
    split; [lia|]. eapply Z.lt_le_trans; [apply Hm'x|].
    etrans; [|apply Hy]. apply Z.pow_le_mono_r; lia.
Qed.

(** A quotient of finite floats whose magnitudes are known. *)
Lemma SFdiv_within sx mx ex sy my ey Ex E :
  Zdigits2 (Z.pos mx) + ex <= Ex →
  Ex - (Zdigits2 (Z.pos my) + ey) + 1 <= E → -1074 <= E <= 1023 →
  SF_within (xorb sx sy) E
    (SFdiv prec emax (S754_finite sx mx ex) (S754_finite sy my ey)).
Proof.
  intros Hx HE HE'. unfold SFdiv.
  destruct (SFdiv_core_binary prec emax (Z.pos mx) ex (Z.pos my) ey)
    as [[q e'] l] eqn:Hcore.
  destruct (SFdiv_core_bound _ _ _ _ _ _ _ Hcore) as (He' & k & Hk & Hq & Hke).
  apply binary_round_aux_within with (k := k); lia.
Qed.

(** A product of finite floats whose magnitudes are known. *)
Lemma SFmul_within sx mx ex sy my ey Ex Ey E :
  ex <= Ex → Z.pos mx <= 2 ^ (Ex - ex) →
  ey <= Ey → Z.pos my <= 2 ^ (Ey - ey) →
  ex + ey <= 971 → Ex + Ey + 1 <= E → -1074 <= E <= 1023 →
  SF_within (xorb sx sy) E
    (SFmul prec emax (S754_finite sx mx ex) (S754_finite sy my ey)).
Proof.
  intros Hex Hmx Hey Hmy He HE HE'. unfold SFmul.
  apply binary_round_aux_within with (k := (Ex - ex) + (Ey - ey) + 1);
    [|lia..].
  rewrite Pos2Z.inj_mul. split; [lia|].
  rewrite !Z.pow_add_r by lia.
  assert (Z.pos mx * Z.pos my <= 2 ^ (Ex - ex) * 2 ^ (Ey - ey)).
  { apply Z.mul_le_mono_nonneg; lia. }
  pose proof (Z.pow_pos_nonneg 2 (Ex - ex) ltac:(lia) ltac:(lia)).
  pose proof (Z.pow_pos_nonneg 2 (Ey - ey) ltac:(lia) ltac:(lia)).
  change (2 ^ 1) with 2. nia.
Qed.

(** What [valid_binary] says of the float behind a primitive float. *)
Lemma valid_finite s m e :
  valid_binary (S754_finite s m e) = true →
  Zdigits2 (Z.pos m) <= 53 ∧ e <= 971 ∧ Zdigits2 (Z.pos m) + e <= 1024.
Proof.
  unfold valid_binary, bounded, canonical_mantissa.
  rewrite andb_true_iff, Z.eqb_eq, Z.leb_le, fexp_eq.
  change (emax - prec) with 971. simpl Zdigits2. lia.
Qed.

Lemma SF_within_isfinite s E x : SF_within s E (Prim2SF x) → isfinite x = true.
Proof. unfold isfinite. by intros [->|(m & e & -> & _)]. Qed.

(** [int] returns on a finite float. *)
Lemma Py_int_isfinite x : isfinite x = true → ∃ n, Py.int x = inr n.
Proof.
  unfold isfinite, Py.int. destruct (Prim2SF x); try done; eauto.
Qed.

(** The truncation of a float that is not negative is not negative. *)
Lemma Py_int_within x E n :
  SF_within false E (Prim2SF x) → Py.int x = inr n → 0 <= n.
Proof.
  unfold Py.int. intros [->|(m & e & -> & _)] [= <-]; [done|].
  simpl. apply Z.shiftl_nonneg. lia.
Qed.

(** An integer quotient below one: [a / b] returns when [0 < a < b]. *)
Lemma Py_truediv_between a b : 0 < a < b → ∃ t, Py.truediv a b = inr t.
Proof.
  intros [Ha Hb]. unfold Py.truediv. rewrite decide_False by lia.
  destruct a as [|pa|pa]; try lia. destruct b as [|pb|pb]; try lia.
  simpl Py.Z2SF.
  assert (Zdigits2 (Z.pos pa) <= Zdigits2 (Z.pos pb)) as Hd.
  { rewrite !Zdigits2_log2 by lia.
    pose proof (Z.log2_le_mono (Z.pos pa) (Z.pos pb)). lia. }
  destruct (SFdiv_within false pa 0 false pb 0 (Zdigits2 (Z.pos pa)) 1)
    as [->|(m & e & -> & _)]; [lia..| |]; simpl; eauto.
Qed.

(** A finite position divided by the frame width is a finite float. *)
Lemma div_frame_width_isfinite x :
  isfinite x = true →
  ∃ q, Py.div_float_int x Timeline.frame_width = inr q ∧ isfinite q = true.
Proof.
  intros Hx. exists (x / 10)%float. split; [reflexivity|].
  unfold isfinite in *. rewrite div_spec.
  pose proof (Prim2SF_valid x) as Hv.
  change (Prim2SF 10) with (S754_finite false 5629499534213120 (-49)).
  destruct (Prim2SF x) as [s|s| |s m e] eqn:Ex; try done.
  apply valid_finite in Hv as (Hd & He & Hde).
  unfold SF64div.
  destruct (SFdiv_within s m e false 5629499534213120 (-49) 1024 1021)
    as [->|(m' & e' & -> & _)]; [lia|simpl; lia|lia|done..].
Qed.

End FloatFacts.

(** ** Interpolation between two keys, and objects without keys *)

Section Between.
Import AnimatedObject.
Implicit Types (self : AnimatedObject.t) (f k a b : Z) (s : State).

Lemma interpolate_between self f b a sb sa :
  keyframes self !! f = None →
  keyframes self !! b = Some sb → keyframes self !! a = Some sa →
  greatest_key_below (keyframes self) f b →
  smallest_key_above (keyframes self) f a →
  ∃ t, Py.truediv (f - b) (a - b) = inr t ∧
    get_interpolated_state self f =
      inr (Some (mkState (lerp (kf_x sb) (kf_x sa) t)
                         (lerp (kf_y sb) (kf_y sa) t)
                         (lerp (kf_brightness sb) (kf_brightness sa) t))).
Proof.
  intros Hf Hb Ha (_ & Hbf & Hbmax) (_ & Haf & Hamin).
  destruct (Py_truediv_between (f - b) (a - b) ltac:(lia)) as [t Ht].
  exists t. split; [done|]. unfold get_interpolated_state.
  destruct (keys_cons_of_lookup _ _ _ Hb) as (k0 & ks & E).
  rewrite E, <- E, Hf.
  pose (before_frames := filter (λ f0, f0 < f) (keys (keyframes self))).
  pose (after_frames := filter (λ f0, f0 > f) (keys (keyframes self))).
  assert (Hbin : b ∈ before_frames).
  { apply list_elem_of_filter. split; [done|]. apply elem_of_keys. eauto. }
  assert (Hain : a ∈ after_frames).
  { apply list_elem_of_filter. split; [lia|]. apply elem_of_keys. eauto. }
  assert (Hmax : Py.max before_frames = inr b).
  { apply Py_max_greatest; [done|].
    intros x [Hx Hk%elem_of_keys]%list_elem_of_filter. by apply Hbmax. }
  assert (Hmin : Py.min after_frames = inr a).
  { apply Py_min_least; [done|].
    intros x [Hx Hk%elem_of_keys]%list_elem_of_filter. apply Hamin; [done|lia]. }
  fold before_frames after_frames.
  destruct before_frames as [|b0 bs] eqn:Eb; [by apply elem_of_nil in Hbin|].
  destruct after_frames as [|a0 as_] eqn:Ea; [by apply elem_of_nil in Hain|].
  rewrite Hmax, Hmin. simpl.
  rewrite (getitem_Some _ _ _ Hb), (getitem_Some _ _ _ Ha). simpl.
  by rewrite Ht.
Qed.

(** C1. On a frame [f] that is not a key and has a key below it and a
    key above it, the result blends the states of [b], the greatest key
    below [f], and [a], the smallest key above [f]: each of x, y and
    brightness is [before + (after - before) * t] with
    [t = (f - b) / (a - b)], computed on its own and not clamped.  With
    exactly two keys [a < b] this is the blend of the two stored
    states. *)
Theorem get_interpolated_state_between :
  (∀ self f k_below k_above,
     keyframes self !! f = None →
     is_Some (keyframes self !! k_below) → k_below < f →
     is_Some (keyframes self !! k_above) → f < k_above →
     ∃ b a sb sa t,
       greatest_key_below (keyframes self) f b ∧
       smallest_key_above (keyframes self) f a ∧
       keyframes self !! b = Some sb ∧ keyframes self !! a = Some sa ∧
       Py.truediv (f - b) (a - b) = inr t ∧
       get_interpolated_state self f =
         inr (Some (mkState
           (kf_x sb + (kf_x sa - kf_x sb) * t)
           (kf_y sb + (kf_y sa - kf_y sb) * t)
           (kf_brightness sb + (kf_brightness sa - kf_brightness sb) * t))%float))
  ∧
  (∀ self a b Sa Sb f,
     keyframes self = <[a := Sa]> {[b := Sb]} → a < b → a < f < b →
     ∃ t, Py.truediv (f - a) (b - a) = inr t ∧
       get_interpolated_state self f =
         inr (Some (mkState
           (kf_x Sa + (kf_x Sb - kf_x Sa) * t)
           (kf_y Sa + (kf_y Sb - kf_y Sa) * t)
           (kf_brightness Sa + (kf_brightness Sb - kf_brightness Sa) * t))%float)).
Proof.
  split.
  - intros self f k_below k_above Hf Hkb Hltb Hka Hlta.
    destruct (greatest_key_below_exists _ f k_below Hkb Hltb) as [b Hb].
    destruct (smallest_key_above_exists _ f k_above Hka Hlta) as [a Ha].
    pose proof Hb as ([sb Hsb] & _). pose proof Ha as ([sa Hsa] & _).
    destruct (interpolate_between self f b a sb sa Hf Hsb Hsa Hb Ha)
      as (t & Ht & Hres).
    by exists b, a, sb, sa, t.
  - intros self a b Sa Sb f Hkf Hab Hf.
    assert (Hkeys : ∀ k, is_Some (keyframes self !! k) → k = a ∨ k = b).
    { intros k [v Hv]. rewrite Hkf in Hv.
      destruct (decide (k = a)) as [|Hne]; [by left|right].
      rewrite lookup_insert_ne in Hv by done.
      by apply lookup_singleton_Some in Hv as [-> _]. }
    assert (Hla : keyframes self !! a = Some Sa).
    { rewrite Hkf. apply lookup_insert_eq. }
    assert (Hlb : keyframes self !! b = Some Sb).
    { rewrite Hkf, lookup_insert_ne by lia. apply lookup_singleton_eq. }
    apply (interpolate_between self f a b Sa Sb); [|done|done| |].
    + destruct (keyframes self !! f) eqn:E; [|done].
      destruct (Hkeys f ltac:(eauto)); lia.
    + split; [eauto|]. split; [lia|]. intros k Hk Hkf'.
      destruct (Hkeys k Hk); lia.
    + split; [eauto|]. split; [lia|]. intros k Hk Hkf'.
      destruct (Hkeys k Hk); lia.
Qed.

(** The blend is not clamped: between brightness 0 at frame 0 and 400 at
    frame 10, frame 9 gets 360, above the slider's 200. *)
Example interpolated_brightness_not_clamped :
  get_interpolated_state
    (with_keyframes (<[0 := mkState 0 0 0]> {[10 := mkState 0 0 400]})
       (init 400 300 50)) 9
  = inr (Some (mkState 0 0 360)).
Proof. vm_compute. reflexivity. Qed.

(** The example of the specification: halfway between (0, 0, 100) at
    frame 0 and (100, 0, 100) at frame 10. *)
Example interpolated_halfway :
  get_interpolated_state
    (with_keyframes (<[0 := mkState 0 0 100]> {[10 := mkState 100 0 100]})
       (init 400 300 50)) 5
  = inr (Some (mkState 50 0 100)).
Proof. vm_compute. reflexivity. Qed.

End Between.

Section Apply.
Import AnimationSoftware.

Lemma update_object_for_frame_empty frame obj :
  AnimatedObject.keyframes obj = ∅ →
  update_object_for_frame frame obj = (inr tt, obj).
Proof.
  intros He. unfold update_object_for_frame.
  cbv [mbind M_bind get lift].
  by rewrite (get_interpolated_state_empty obj frame He).
Qed.

(** C4. On an object whose store has no entry, [get_interpolated_state]
    returns [None] on every frame, and applying a frame to the scene
    leaves every such object as it was: position, brightness and colour
    unchanged. *)
Theorem empty_store_no_state frame :
  (∀ obj, AnimatedObject.keyframes obj = ∅ →
     AnimatedObject.get_interpolated_state obj frame = inr None) ∧
  (∀ self i obj,
     Canvas.objects (canvas self) !! i = Some obj →
     AnimatedObject.keyframes obj = ∅ →
     Canvas.objects (canvas (update_objects_for_frame frame self).2) !! i
       = Some obj).
Proof.
  split.
  - intros obj. apply get_interpolated_state_empty.
  - intros self i obj Hi He. unfold update_objects_for_frame.
    pose proof (for_each_fixed (update_object_for_frame frame)
                  (Canvas.objects (canvas self)) i obj Hi) as Hfix.
    rewrite update_object_for_frame_empty in Hfix by done.
    specialize (Hfix eq_refl).
    by destruct (for_each _ _).
Qed.

End Apply.

(** ** The red bar: pixels and frames *)

Section Scrub.
Import AnimationSoftware.

Lemma on_bar_move_finite x tl :
  isfinite x = true →
  ∃ q n, Py.div_float_int x Timeline.frame_width = inr q ∧ Py.int q = inr n ∧
    Timeline.on_bar_move x tl =
      (inr (Z.max 0 (Z.min n (Timeline.max_frames tl - 1))),
       Timeline.mk (Timeline.max_frames tl)
         (Z.max 0 (Z.min n (Timeline.max_frames tl - 1)))
         (Timeline.bar_x tl)).
Proof.
  intros Hx.
  destruct (div_frame_width_isfinite x Hx) as (q & Hq & Hfin).
  destruct (Py_int_isfinite q Hfin) as [n Hn].
  exists q, n. split; [done|]. split; [done|].
  unfold Timeline.on_bar_move. cbv [mbind M_bind lift get modify mret M_ret].
  by rewrite Hq, Hn.
Qed.

Lemma update_objects_for_frame_state frame self :
  (update_objects_for_frame frame self).2 =
    with_canvas
      (Canvas.mk (for_each (update_object_for_frame frame)
                    (Canvas.objects (canvas self))).2)
      self.
Proof. unfold update_objects_for_frame. by destruct (for_each _ _). Qed.

Lemma goto_frame_state frame self :
  (goto_frame frame self).2 =
    mk frame (max_frames self) (is_playing self) (fps self)
      (Canvas.mk (for_each (update_object_for_frame frame)
                    (Canvas.objects (canvas self))).2)
      (Timeline.mk (Timeline.max_frames (timeline self)) frame
         (frame * Timeline.frame_width)).
Proof.
  unfold goto_frame.
  cbv [mbind M_bind modify on_timeline Timeline.set_frame].
  simpl. by rewrite update_objects_for_frame_state.
Qed.




End Scrub.

(** ** Brightness and the rendered colour *)

Section Brightness.
Import AnimatedObject.

Lemma channel_in_range c : channel c → c ∈ seqZ 0 256.
Proof. unfold channel. intros Hc. apply elem_of_seqZ. lia. Qed.

Lemma channel_float_ok_all : forallb channel_float_ok (seqZ 0 256) = true.
Proof. vm_compute. reflexivity. Qed.

Lemma channel_kept_at_100_all : forallb channel_kept_at_100 (seqZ 0 256) = true.
Proof. vm_compute. reflexivity. Qed.

Lemma float_of_channel c :
  channel c →
  ∃ cf, Py.float_of_int c = inr cf ∧
    (Prim2SF cf = S754_zero false ∨
     ∃ m e, Prim2SF cf = S754_finite false m e ∧ e <= 0 ∧ Z.pos m <= 2 ^ (8 - e)).
Proof.
  intros Hc%channel_in_range%list_elem_of_In.
  pose proof (proj1 (forallb_forall _ _) channel_float_ok_all c Hc) as Hok.
  unfold channel_float_ok in Hok.
  destruct (Py.float_of_int c) as [|cf]; [done|]. exists cf. split; [done|].
  destruct (Prim2SF cf) as [[]|[]| |[] m e]; try done; [by left|].
  apply andb_true_iff in Hok as [He%Z.leb_le Hm%Z.leb_le]. right. eauto.
Qed.

Lemma scaled_at_100 c : channel c → scaled c (100 / 100)%float = inr c.
Proof.
  intros Hc%channel_in_range%list_elem_of_In.
  pose proof (proj1 (forallb_forall _ _) channel_kept_at_100_all c Hc) as Hok.
  unfold channel_kept_at_100 in Hok.
  destruct (scaled c (100 / 100)%float) as [|n]; [done|].
  by apply Z.eqb_eq in Hok as ->.
Qed.

(** A brightness in range is a zero or a positive finite float. *)
Lemma brightness_range v :
  (0 <=? v)%float = true → (v <=? brightness_bound)%float = true →
  (∃ s, Prim2SF v = S754_zero s) ∨
  ∃ m e, Prim2SF v = S754_finite false m e ∧ Zdigits2 (Z.pos m) + e <= 1001.
Proof.
  rewrite !leb_spec.
  change (Prim2SF 0) with (S754_zero false).
  change (Prim2SF brightness_bound)
    with (S754_finite false 4503599627370496 948).
  pose proof (Prim2SF_valid v) as Hv.
  destruct (Prim2SF v) as [s|s| |s m e]; [by eauto| | |].
  - destruct s; by cbv.
  - by cbv.
  - intros H0 Hb. right. exists m, e.
    apply valid_finite in Hv as (Hd & _ & _).
    destruct s; [by cbv in H0|]. split; [done|].
    unfold SFleb, SFcompare in Hb.
    destruct (Z.compare_spec e 948); [lia|lia|done].
Qed.

(** The factor [brightness / 100.0] of a brightness in range. *)
Lemma factor_within v :
  (0 <=? v)%float = true → (v <=? brightness_bound)%float = true →
  (∃ s, Prim2SF (v / 100) = S754_zero s) ∨
  ∃ m e, Prim2SF (v / 100) = S754_finite false m e ∧
    e <= 971 ∧ e <= 995 ∧ Z.pos m <= 2 ^ (995 - e).
Proof.
  intros H0 Hb. pose proof (Prim2SF_valid (v / 100)) as Hvalid.
  rewrite div_spec in *.
  change (Prim2SF 100) with (S754_finite false 7036874417766400 (-46)) in *.
  destruct (brightness_range v H0 Hb) as [[s Ev]|(m & e & Ev & Hd)];
    rewrite Ev in *.
  - left. by eexists.
  - unfold SF64div in *.
    destruct (SFdiv_within false m e false 7036874417766400 (-46) 1001 995)
      as [E|(m' & e' & E & He' & Hm')]; [done|simpl; lia|lia| |];
      rewrite E in *.
    + left. by eexists.
    + right. exists m', e'. apply valid_finite in Hvalid as (_ & He971 & _).
      by repeat split.
Qed.

(** One channel at a brightness in range: the conversion and the
    truncation return, and the truncated value is not negative. *)
Lemma scaled_in_range c v :
  channel c →
  (0 <=? v)%float = true → (v <=? brightness_bound)%float = true →
  ∃ p n, Py.mul_int_float c (v / 100) = inr p ∧ Py.int p = inr n ∧
    0 <= n ∧ scaled c (v / 100) = inr (Z.min 255 n).
Proof.
  intros Hc H0 Hb.
  destruct (float_of_channel c Hc) as (cf & Hcf & Hshape).
  assert ((∃ s, Prim2SF (cf * (v / 100)) = S754_zero s) ∨
          SF_within false 1004 (Prim2SF (cf * (v / 100)))) as Hw.
  { rewrite mul_spec. unfold SF64mul.
    destruct (factor_within v H0 Hb) as [[s ->]|(mF & eF & -> & He & He' & HmF)];
      destruct Hshape as [->|(mc & ec & -> & Hec & Hmc)].
    - left. by eexists.
    - left. by eexists.
    - left. by eexists.
    - right. apply (SFmul_within false mc ec false mF eF 8 995); lia. }
  exists (cf * (v / 100))%float.
  assert (∃ n, Py.int (cf * (v / 100)) = inr n ∧ 0 <= n) as (n & Hn & Hn0).
  { destruct Hw as [[s Hz]|Hw].
    - exists 0. unfold Py.int. by rewrite Hz.
    - destruct (Py_int_isfinite _ (SF_within_isfinite _ _ _ Hw)) as [n Hn].
      exists n. split; [done|]. by apply (Py_int_within _ _ _ Hw). }
  exists n. unfold scaled, Py.mul_int_float. rewrite Hcf. simpl.
  rewrite Hn. by simpl.
Qed.

(** C9, as the code has it. For a brightness [v] from 0 to [2 ^ 1000]
    (the slider gives 0..200) and a base colour with channels in
    [0, 255], [set_brightness] stores [v] and renders each channel as
    [min(255, int(channel * (v / 100.0)))], a value in [0, 255]. *)
Theorem set_brightness_in_range self v :
  valid_color (base_color self) →
  (0 <=? v)%float = true → (v <=? brightness_bound)%float = true →
  ∃ r g b,
    set_brightness v self
      = (inr tt, with_brush (mkQColor r g b) (with_brightness v self)) ∧
    scaled (red (base_color self)) (v / 100) = inr r ∧
    scaled (green (base_color self)) (v / 100) = inr g ∧
    scaled (blue (base_color self)) (v / 100) = inr b ∧
    channel r ∧ channel g ∧ channel b.
Proof.
  intros (Hr & Hg & Hbl) H0 Hb.
  destruct (scaled_in_range _ v Hr H0 Hb) as (pr & nr & _ & _ & Hnr & Er).
  destruct (scaled_in_range _ v Hg H0 Hb) as (pg & ng & _ & _ & Hng & Eg).
  destruct (scaled_in_range _ v Hbl H0 Hb) as (pb & nb & _ & _ & Hnb & Eb).
  exists (Z.min 255 nr), (Z.min 255 ng), (Z.min 255 nb).
  unfold set_brightness. cbv [mbind M_bind modify get lift].
  destruct self as [p sz bc br kfs bri]. simpl in *.
  rewrite Er, Eg, Eb. unfold channel. repeat split; lia.
Qed.

(** The example of the specification: brightness 200 on the default
    base colour (100, 150, 255) renders (200, 255, 255). *)
Example set_brightness_200 :
  brush (set_brightness 200 (init 400 300 50)).2 = mkQColor 200 255 255.
Proof. vm_compute. reflexivity. Qed.

(** Below the slider's range nothing is clamped from below by the code
    itself; it is the sign of the brightness that keeps a channel from
    going negative. *)
Example set_brightness_negative :
  brush (set_brightness (-50) (init 400 300 50)).2 = mkQColor (-50) (-75) (-127).
Proof. vm_compute. reflexivity. Qed.

End Brightness.

(** ** Loading a document *)

Section Load.
Import AnimationSoftware.
Variable QColor_of_name : string → QColor.
Hypothesis QColor_valid : ∀ name, valid_color (QColor_of_name name).









End Load.

(** * Further properties of the code *)

(** ** The keyframe store *)

Section Store.
Import AnimatedObject.
Implicit Types (self : AnimatedObject.t) (f k : Z).

Lemma foldl_max_in l k : foldl Z.max k l ∈ k :: l.
Proof. apply foldl_max_spec. Qed.

Lemma foldl_min_in l k : foldl Z.min k l ∈ k :: l.
Proof. apply foldl_min_spec. Qed.

(** X1. [get_interpolated_state] never raises: none of its lookups, its
    [min] and [max] or its division can fail, whatever the store and the
    frame.  It returns [None] exactly on the empty store. *)
Theorem get_interpolated_state_total self f :
  ∃ r, get_interpolated_state self f = inr r ∧
       (r = None ↔ keyframes self = ∅).
Proof.
  unfold get_interpolated_state.
  destruct (keys (keyframes self)) as [|k0 ks] eqn:E.
  { exists None. split; [done|]. split; [|done]. intros _. by apply keys_nil. }
  assert (Hne : keyframes self ≠ ∅).
  { intros He%keys_nil. by rewrite He in E. }
  destruct (keyframes self !! f) as [kf|] eqn:Hf; [by eexists|].
  assert (Hget : ∀ k, k ∈ k0 :: ks → ∃ s, getitem (keyframes self) k = inr s).
  { intros k Hk. rewrite <- E in Hk. apply elem_of_keys in Hk as [s Hs].
    exists s. by apply getitem_Some. }
  destruct (filter (λ f0, f0 < f) (k0 :: ks)) as [|b0 bs] eqn:Eb.
  - simpl. destruct (Hget (foldl Z.min k0 ks)) as [s Hs]; [apply foldl_min_in|].
    rewrite Hs. by eexists.
  - destruct (filter (λ f0, f0 > f) (k0 :: ks)) as [|a0 as_] eqn:Ea.
    + simpl. destruct (Hget (foldl Z.max k0 ks)) as [s Hs]; [apply foldl_max_in|].
      rewrite Hs. by eexists.
    + simpl.
      pose proof (foldl_max_in bs b0) as Hb. rewrite <- Eb in Hb.
      apply list_elem_of_filter in Hb as [Hbf Hbk].
      pose proof (foldl_min_in as_ a0) as Ha. rewrite <- Ea in Ha.
      apply list_elem_of_filter in Ha as [Haf Hak].
      destruct (Hget _ Hbk) as [sb Hsb]. destruct (Hget _ Hak) as [sa Hsa].
      rewrite Hsb, Hsa. simpl.
      destruct (Py_truediv_between (f - foldl Z.max b0 bs)
                  (foldl Z.min a0 as_ - foldl Z.max b0 bs) ltac:(lia))
        as [t Ht].
      rewrite Ht. by eexists.
Qed.

Lemma add_keyframe_state self f :
  get_interpolated_state (add_keyframe f self) f
  = inr (Some (mkState (pos self).1 (pos self).2 (brightness self))) ∧
  keyframes (add_keyframe f self) !! f
  = Some (mkState (pos self).1 (pos self).2 (brightness self)).
Proof.
  assert (Hf : keyframes (add_keyframe f self) !! f
               = Some (mkState (pos self).1 (pos self).2 (brightness self))).
  { unfold add_keyframe. simpl. apply lookup_insert_eq. }
  split; [|done]. unfold get_interpolated_state.
  destruct (keys_cons_of_lookup _ _ _ Hf) as (k0 & ks & ->). by rewrite Hf.
Qed.

(** X2. [add_keyframe] writes the current position and brightness at the
    frame and nothing else: the other keys keep their states, reading
    the frame back gives the snapshot, and a second call at the same
    frame after the object moved replaces the first snapshot. *)
Theorem add_keyframe_snapshot self f :
  let snapshot := mkState (pos self).1 (pos self).2 (brightness self) in
  keyframes (add_keyframe f self) !! f = Some snapshot ∧
  (∀ k, k ≠ f → keyframes (add_keyframe f self) !! k = keyframes self !! k) ∧
  get_interpolated_state (add_keyframe f self) f = inr (Some snapshot) ∧
  (∀ p b,
     add_keyframe f (with_brightness b (with_pos p (add_keyframe f self)))
     = add_keyframe f (with_brightness b (with_pos p self))).
Proof.
  intros snapshot.
  assert (Hf : keyframes (add_keyframe f self) !! f = Some snapshot).
  { unfold add_keyframe. simpl. apply lookup_insert_eq. }
  split; [done|]. split; [|split].
  - intros k Hk. unfold add_keyframe. simpl. by apply lookup_insert_ne.
  - unfold get_interpolated_state.
    destruct (keys_cons_of_lookup _ _ _ Hf) as (k0 & ks & ->). by rewrite Hf.
  - intros p b. unfold add_keyframe, with_keyframes, with_brightness, with_pos.
    simpl. f_equal. apply insert_insert_eq.
Qed.

(** X3. [remove_keyframe] deletes the entry of the frame and nothing
    else: the other keys, the position, the brightness and the colours
    are untouched, and on a frame without keyframe the object is
    returned as it is. *)
Theorem remove_keyframe_only self f :
  keyframes (remove_keyframe f self) !! f = None ∧
  (∀ k, k ≠ f → keyframes (remove_keyframe f self) !! k = keyframes self !! k) ∧
  (keyframes self !! f = None → remove_keyframe f self = self) ∧
  pos (remove_keyframe f self) = pos self ∧
  brightness (remove_keyframe f self) = brightness self ∧
  base_color (remove_keyframe f self) = base_color self ∧
  brush (remove_keyframe f self) = brush self.
Proof.
  unfold remove_keyframe.
  destruct (keyframes self !! f) as [s|] eqn:Hf; simpl.
  - split; [apply lookup_delete_eq|]. split; [|done].
    intros k Hk. by apply lookup_delete_ne.
  - split; [done|]. by split.
Qed.

End Store.

(** ** Applying a frame to the objects *)

Section ApplyFrame.
Import AnimatedObject AnimationSoftware.
Implicit Types (obj : AnimatedObject.t) (self : AnimationSoftware.t).

Lemma channel_black_at_0_all : forallb channel_black_at_0 (seqZ 0 256) = true.
Proof. vm_compute. reflexivity. Qed.

Lemma scaled_at_0 c : channel c → scaled c (0 / 100)%float = inr 0.
Proof.
  intros Hc%channel_in_range%list_elem_of_In.
  pose proof (proj1 (forallb_forall _ _) channel_black_at_0_all c Hc) as Hok.
  unfold channel_black_at_0 in Hok.
  destruct (scaled c (0 / 100)%float) as [|n]; [done|].
  by apply Z.eqb_eq in Hok as ->.
Qed.

(** [set_brightness] written out on the record. *)
Lemma set_brightness_unfold v p sz bc br kfs bri :
  set_brightness v (AnimatedObject.mk p sz bc br kfs bri) =
    match scaled (red bc) (v / 100), scaled (green bc) (v / 100),
          scaled (blue bc) (v / 100) with
    | inr r, inr g, inr b =>
        (inr tt, AnimatedObject.mk p sz bc (mkQColor r g b) kfs v)
    | inl e, _, _ | inr _, inl e, _ | inr _, inr _, inl e =>
        (inl e, AnimatedObject.mk p sz bc br kfs v)
    end.
Proof.
  unfold set_brightness. cbv [mbind M_bind modify get lift]. simpl.
  destruct (scaled (red bc) (v / 100)); [done|].
  destruct (scaled (green bc) (v / 100)); [done|].
  by destruct (scaled (blue bc) (v / 100)).
Qed.


(** [update_object_for_frame] written out on the record. *)
Lemma update_object_for_frame_unfold frame p sz bc br kfs bri :
  update_object_for_frame frame (AnimatedObject.mk p sz bc br kfs bri) =
    match get_interpolated_state (AnimatedObject.mk p sz bc br kfs bri) frame with
    | inl e => (inl e, AnimatedObject.mk p sz bc br kfs bri)
    | inr None => (inr tt, AnimatedObject.mk p sz bc br kfs bri)
    | inr (Some state) =>
        set_brightness (kf_brightness state)
          (AnimatedObject.mk (kf_x state, kf_y state) sz bc br kfs bri)
    end.
Proof.
  unfold update_object_for_frame. cbv [mbind M_bind get lift].
  by destruct (get_interpolated_state _ _) as [e|[state|]].
Qed.



Lemma for_each_Forall2 {O} (body : M O unit) (R : O → O → Prop) objs :
  (∀ o, R o o) → (∀ o, R o (body o).2) →
  Forall2 R objs (for_each body objs).2.
Proof.
  intros Hrefl Hbody. induction objs as [|o objs IH]; simpl; [constructor|].
  specialize (Hbody o). destruct (body o) as [[e|[]] o']; simpl in *.
  - constructor; [done|]. by apply Forall_Forall2_diag, Forall_forall.
  - destruct (for_each body objs) as [r rest]. by constructor.
Qed.

Lemma update_object_for_frame_authored frame obj :
  same_authored obj (update_object_for_frame frame obj).2.
Proof.
  destruct obj as [p sz bc br kfs bri].
  rewrite update_object_for_frame_unfold.
  destruct (get_interpolated_state _ frame) as [e|[state|]]; try done.
  rewrite set_brightness_unfold.
  by repeat (destruct (scaled _ _)).
Qed.

(** X4. Applying a frame reads the keyframes and never writes them: after
    [update_objects_for_frame], and after [goto_frame], the scene has the
    same objects in the same order, each with the keyframes, the base
    colour and the size it had, also when the loop stops on a raise. *)
Theorem apply_frame_keeps_authored frame self :
  Forall2 same_authored (Canvas.objects (canvas self))
    (Canvas.objects (canvas (update_objects_for_frame frame self).2)) ∧
  Forall2 same_authored (Canvas.objects (canvas self))
    (Canvas.objects (canvas (goto_frame frame self).2)) ∧
  max_frames (goto_frame frame self).2 = max_frames self ∧
  fps (goto_frame frame self).2 = fps self ∧
  is_playing (goto_frame frame self).2 = is_playing self.
Proof.
  assert (H : Forall2 same_authored (Canvas.objects (canvas self))
                (for_each (update_object_for_frame frame)
                   (Canvas.objects (canvas self))).2).
  { apply for_each_Forall2; [done|]. apply update_object_for_frame_authored. }
  rewrite update_objects_for_frame_state, goto_frame_state. by simpl.
Qed.


(** X6. When the state of a frame has a brightness from 0 to [2 ^ 1000]
    and the base colour has channels in 0..255, applying the frame to the
    object puts it at the position of the state, gives it the brightness
    of the state and renders the colour for that brightness; keyframes,
    base colour and size stay. *)
Theorem update_object_for_frame_applies frame obj state :
  get_interpolated_state obj frame = inr (Some state) →
  valid_color (base_color obj) →
  (0 <=? kf_brightness state)%float = true →
  (kf_brightness state <=? brightness_bound)%float = true →
  ∃ r g b,
    update_object_for_frame frame obj =
      (inr tt,
       AnimatedObject.mk (kf_x state, kf_y state) (size obj) (base_color obj)
         (mkQColor r g b) (keyframes obj) (kf_brightness state)) ∧
    scaled (red (base_color obj)) (kf_brightness state / 100) = inr r ∧
    scaled (green (base_color obj)) (kf_brightness state / 100) = inr g ∧
    scaled (blue (base_color obj)) (kf_brightness state / 100) = inr b ∧
    channel r ∧ channel g ∧ channel b.
Proof.
  intros Hst (Hr & Hg & Hb) H0 Hbound.
  destruct (scaled_in_range _ _ Hr H0 Hbound) as (? & nr & _ & _ & Hnr & Er).
  destruct (scaled_in_range _ _ Hg H0 Hbound) as (? & ng & _ & _ & Hng & Eg).
  destruct (scaled_in_range _ _ Hb H0 Hbound) as (? & nb & _ & _ & Hnb & Eb).
  exists (Z.min 255 nr), (Z.min 255 ng), (Z.min 255 nb).
  destruct obj as [p sz bc br kfs bri]. simpl in *.
  rewrite update_object_for_frame_unfold, Hst, set_brightness_unfold.
  rewrite Er, Eg, Eb. unfold channel. repeat split; lia.
Qed.

(** X7. On a base colour with channels in 0..255, brightness 100 renders
    the base colour itself and brightness 0 renders black. *)
Theorem set_brightness_100_and_0 obj :
  valid_color (base_color obj) →
  set_brightness 100 obj
  = (inr tt, with_brush (base_color obj) (with_brightness 100 obj)) ∧
  set_brightness 0 obj
  = (inr tt, with_brush (mkQColor 0 0 0) (with_brightness 0 obj)).
Proof.
  intros (Hr & Hg & Hb). destruct obj as [p sz [r g b] br kfs bri].
  simpl in *. rewrite !set_brightness_unfold. simpl.
  by rewrite !scaled_at_100, !scaled_at_0.
Qed.

(** X8. A NaN brightness makes [set_brightness] raise [ValueError] at the
    first channel: the brightness is already assigned, the brush keeps
    its colour and nothing else changes. *)
Theorem set_brightness_nan v obj :
  Prim2SF v = S754_nan → valid_color (base_color obj) →
  set_brightness v obj = (inl ValueError, with_brightness v obj).
Proof.
  intros Hnan (Hr & _). destruct obj as [p sz bc br kfs bri]. simpl in *.
  rewrite set_brightness_unfold.
  assert (scaled (red bc) (v / 100) = inl ValueError) as ->; [|done].
  destruct (float_of_channel _ Hr) as (cf & Hcf & Hshape).
  unfold scaled, Py.mul_int_float. rewrite Hcf. simpl.
  unfold Py.int. rewrite mul_spec, div_spec, Hnan. unfold SF64mul, SF64div.
  by destruct Hshape as [->|(m & e & -> & _)].
Qed.

End ApplyFrame.

(** ** Playback and the edges of a drag *)

Section Playback.
Import AnimationSoftware.
Implicit Types (self : AnimationSoftware.t).




(** X10. The edges of a drag.  A finite position at or left of the
    origin gives frame 0, whatever [max_frames] is.  An infinite position
    raises [OverflowError] and a NaN raises [ValueError], and the
    timeline is then left as it was.  No drag changes [max_frames]. *)
Theorem on_bar_move_edges tl :
  (∀ x, isfinite x = true → (x <=? 0)%float = true →
     Timeline.on_bar_move x tl
     = (inr 0, Timeline.mk (Timeline.max_frames tl) 0 (Timeline.bar_x tl))) ∧
  (∀ x s, Prim2SF x = S754_infinity s →
     Timeline.on_bar_move x tl = (inl OverflowError, tl)) ∧
  (∀ x, Prim2SF x = S754_nan →
     Timeline.on_bar_move x tl = (inl ValueError, tl)) ∧
  (∀ x, Timeline.max_frames (Timeline.on_bar_move x tl).2
        = Timeline.max_frames tl).
Proof.
  assert (Hdiv : ∀ x, Py.div_float_int x Timeline.frame_width = inr (x / 10)%float)
    by reflexivity.
  assert (Hten : Prim2SF 10 = S754_finite false 5629499534213120 (-49))
    by reflexivity.
  split; [|split; [|split]].
  - intros x Hfin Hneg.
    destruct (on_bar_move_finite x tl Hfin) as (q & n & Hq & Hn & ->).
    rewrite Hdiv in Hq. injection Hq as <-.
    assert (n <= 0) as Hle; [|by replace (Z.max 0 _) with 0 by lia].
    rewrite leb_spec in Hneg. change (Prim2SF 0) with (S754_zero false) in Hneg.
    pose proof (Prim2SF_valid x) as Hv.
    unfold Py.int in Hn. rewrite div_spec, Hten in Hn. unfold SF64div in Hn.
    destruct (Prim2SF x) as [s|s| |s m e] eqn:Ex; try done.
    + simpl in Hn. injection Hn as <-. done.
    + destruct s; [|by cbv in Hneg].
      apply valid_finite in Hv as (Hd & He & Hde).
      destruct (SFdiv_within true m e false 5629499534213120 (-49) 1024 1021)
        as [E|(m' & e' & E & _)]; [lia|simpl; lia|lia| |];
        rewrite E in Hn; injection Hn as <-; simpl; [done|].
      pose proof (Z.shiftl_nonneg (Z.pos m') e'). lia.
  - intros x s Hx. unfold Timeline.on_bar_move.
    cbv [mbind M_bind lift]. rewrite Hdiv. simpl.
    unfold Py.int. by rewrite div_spec, Hx, Hten.
  - intros x Hx. unfold Timeline.on_bar_move.
    cbv [mbind M_bind lift]. rewrite Hdiv. simpl.
    unfold Py.int. by rewrite div_spec, Hx, Hten.
  - intros x. unfold Timeline.on_bar_move.
    cbv [mbind M_bind lift get modify mret M_ret]. rewrite Hdiv. simpl.
    by destruct (Py.int (x / 10)).
Qed.

End Playback.

(** ** Decimal keys *)

Section Decimal.







End Decimal.

(** ** Keyframe items *)

Section Items.
Implicit Types (items : list (string * State)) (acc m : gmap Z State).

Lemma keyframes_of_items_app items1 items2 acc :
  keyframes_of_items (items1 ++ items2) acc
  = keyframes_of_items items1 acc ≫= keyframes_of_items items2.
Proof.
  revert acc. induction items1 as [|[k v] items1 IH]; intros acc; simpl; [done|].
  destruct (Py.int_of_str k) as [e|frame]; simpl; [done|]. apply IH.
Qed.

(** X11. Keyframe keys are compared as integers: the entry written last
    under a key is the one kept, also when an earlier entry spelled the
    same integer differently; the other keys are as the earlier entries
    left them. *)
Theorem keyframes_of_items_last_wins items k v acc m :
  keyframes_of_items (items ++ [(k, v)]) acc = inr m →
  ∃ frame m0, Py.int_of_str k = inr frame ∧
    keyframes_of_items items acc = inr m0 ∧
    m !! frame = Some v ∧
    ∀ frame', frame' ≠ frame → m !! frame' = m0 !! frame'.
Proof.
  rewrite keyframes_of_items_app.
  destruct (keyframes_of_items items acc) as [e|m0]; simpl; [done|].
  destruct (Py.int_of_str k) as [e|frame]; simpl; [done|].
  intros [= <-]. exists frame, m0. split; [done|]. split; [done|].
  split; [apply lookup_insert_eq|].
  intros frame' Hne. by apply lookup_insert_ne.
Qed.



End Items.

(** ** Hexadecimal colour names *)

Section Hex.



Lemma hex_round_trip_all : forallb hex_round_trip (seqZ 0 256) = true.
Proof. vm_compute. reflexivity. Qed.

Lemma hex_pair_digits c :
  channel c → hex_pair (hex_digit (c / 16)) (hex_digit (c mod 16)) = Some c.
Proof.
  intros Hc%channel_in_range%list_elem_of_In.
  pose proof (proj1 (forallb_forall _ _) hex_round_trip_all c Hc) as Hok.
  unfold hex_round_trip in Hok.
  destruct (hex_pair _ _) as [n|]; [|done]. by apply Z.eqb_eq in Hok as ->.
Qed.

(** A colour with channels in 0..255 is read back from its name. *)
Lemma QColor_of_hex_name c : valid_color c → QColor_of_hex (QColor_name c) = c.
Proof.
  destruct c as [r g b]. intros (Hr & Hg & Hb). simpl in *.
  unfold QColor_of_hex, QColor_name. simpl.
  by rewrite !hex_pair_digits.
Qed.

End Hex.

(** ** Loading accepted entries, and saving *)

Section SaveLoad.
Import AnimationSoftware.
Variable QColor_of_name : string → QColor.
Hypothesis QColor_valid : ∀ name, valid_color (QColor_of_name name).
Implicit Types (self : AnimationSoftware.t).





End SaveLoad.

Section RoundTrip.
Import AnimationSoftware.
Variable QColor_name_of : QColor → string.
Variable QColor_of_name : string → QColor.
Hypothesis QColor_valid : ∀ name, valid_color (QColor_of_name name).




End RoundTrip.

(** ** Stores with one key, neighbours, and the frame counter *)

Section MoreStore.
Import AnimatedObject AnimationSoftware.
Implicit Types (obj : AnimatedObject.t) (self : AnimationSoftware.t).

(** X14. An object with a single keyframe has the state of that keyframe
    on every frame. *)
Theorem single_keyframe_everywhere obj k s frame :
  keyframes obj = {[k := s]} →
  get_interpolated_state obj frame = inr (Some s).
Proof.
  intros Hkf.
  assert (Hk : keyframes obj !! k = Some s).
  { rewrite Hkf. apply lookup_singleton_eq. }
  assert (Honly : ∀ k', is_Some (keyframes obj !! k') → k' = k).
  { intros k' [v Hv]. rewrite Hkf in Hv.
    by apply lookup_singleton_Some in Hv as [-> _]. }
  destruct (Z.lt_trichotomy frame k) as [Hlt|[->|Hgt]].
  - apply (before_first obj frame k s); [done| |done].
    split; [eauto|]. intros k' Hk'. rewrite (Honly k' Hk'). lia.
  - unfold get_interpolated_state.
    destruct (keys_cons_of_lookup _ _ _ Hk) as (k0 & ks & ->). by rewrite Hk.
  - apply (after_last obj frame k s); [done| |done].
    split; [eauto|]. intros k' Hk'. rewrite (Honly k' Hk'). lia.
Qed.

(** X15. Between two neighbouring keys the state depends on those two
    keyframes only: two stores in which the frame has the same nearest
    key below and above, with the same states, give the same state,
    whatever other keyframes they hold. *)
Theorem interpolation_is_local obj obj' frame b a sb sa :
  keyframes obj !! frame = None → keyframes obj' !! frame = None →
  keyframes obj !! b = Some sb → keyframes obj' !! b = Some sb →
  keyframes obj !! a = Some sa → keyframes obj' !! a = Some sa →
  greatest_key_below (keyframes obj) frame b →
  greatest_key_below (keyframes obj') frame b →
  smallest_key_above (keyframes obj) frame a →
  smallest_key_above (keyframes obj') frame a →
  get_interpolated_state obj frame = get_interpolated_state obj' frame.
Proof.
  intros Hf Hf' Hb Hb' Ha Ha' Hgb Hgb' Hsa Hsa'.
  destruct (interpolate_between obj frame b a sb sa Hf Hb Ha Hgb Hsa)
    as (t & Ht & ->).
  destruct (interpolate_between obj' frame b a sb sa Hf' Hb' Ha' Hgb' Hsa')
    as (t' & Ht' & ->).
  congruence.
Qed.

(** X16. A keyframe captures what is on screen: applying a frame right
    after [add_keyframe] on it leaves the position and the brightness of
    the object as they were, and the store as [add_keyframe] left it. *)
Theorem apply_after_add_keyframe obj frame :
  let captured := add_keyframe frame obj in
  let applied := (update_object_for_frame frame captured).2 in
  pos applied = pos obj ∧ brightness applied = brightness obj ∧
  keyframes applied = keyframes captured.
Proof.
  intros captured applied. subst applied captured.
  destruct (add_keyframe_state obj frame) as [Hst Hadd].
  destruct obj as [[x y] sz bc br kfs bri]. simpl in *.
  unfold add_keyframe, with_keyframes in *. simpl in *.
  rewrite update_object_for_frame_unfold, Hst. simpl.
  rewrite set_brightness_unfold.
  by repeat (destruct (scaled _ _)).
Qed.

(** X17. One playback tick brings the frame counter into range: from any
    current frame of at least -1, also one beyond [max_frames], the next
    frame is in [0, max_frames), and it is 0 whenever the current frame
    is the last one or beyond. *)
Theorem next_frame_into_range self :
  0 < max_frames self → -1 <= current_frame self →
  0 <= current_frame (next_frame self).2 < max_frames self ∧
  max_frames (next_frame self).2 = max_frames self ∧
  (max_frames self - 1 <= current_frame self →
     current_frame (next_frame self).2 = 0).
Proof.
  intros Hmax Hcur.
  assert (Hstep : next_frame self =
            goto_frame (if decide (current_frame self + 1 >= max_frames self)
                        then 0 else current_frame self + 1) self).
  { unfold next_frame. cbv [mbind M_bind modify get mret M_ret].
    destruct self as [cf mf pl fp cv tl]. simpl.
    by destruct (decide (cf + 1 >= mf)). }
  rewrite Hstep, goto_frame_state. simpl.
  destruct (decide (current_frame self + 1 >= max_frames self)); lia.
Qed.

End MoreStore.

(** * Where the code departs from the specification *)




(** [load_animation] replaces [max_frames] of the window only; the
    timeline keeps the 300 it was built with, and a drag to pixel 2000
    after loading a document of 100 frames is clamped against 300. *)
Example drag_after_load :
  let loaded :=
    (AnimationSoftware.load_animation no_color (inr document_100_frames)
       AnimationSoftware.init).2 in
  AnimationSoftware.max_frames loaded = 100 ∧
  Timeline.max_frames (AnimationSoftware.timeline loaded) = 300 ∧
  AnimationSoftware.current_frame
    (AnimationSoftware.bar_dragged 2000 loaded).2 = 200.
Proof. repeat split; vm_compute; reflexivity. Qed.

(** C9 fails on the code: at brightness [2 ^ 1023] the blue channel
    255 * (v / 100) is an infinity, [int] raises [OverflowError] and no
    colour is rendered: the brush stays (100, 150, 255). *)
Lemma set_brightness_overflows :
  (0 <=? huge_brightness)%float = true ∧
  AnimatedObject.set_brightness huge_brightness (AnimatedObject.init 400 300 50)
  = (inl OverflowError,
     AnimatedObject.with_brightness huge_brightness
       (AnimatedObject.init 400 300 50)) ∧
  AnimatedObject.brush
    (AnimatedObject.set_brightness huge_brightness
       (AnimatedObject.init 400 300 50)).2
  = mkQColor 100 150 255.
Proof. repeat split; vm_compute; reflexivity. Qed.

(** * The theorems at work on concrete values *)

Lemma example_object_keys k :
  is_Some (AnimatedObject.keyframes example_object !! k) → k = 0 ∨ k = 10.
Proof.
  intros [v Hv]. destruct (decide (k = 0)) as [|Hne]; [by left|right].
  unfold example_object in Hv. simpl in Hv.
  rewrite lookup_insert_ne in Hv by done.
  by apply lookup_singleton_Some in Hv as [-> _].
Defined.

Lemma get_interpolated_state_between_witness :
  AnimatedObject.keyframes example_object !! 5 = None ∧
  is_Some (AnimatedObject.keyframes example_object !! 0) ∧ 0 < 5 ∧
  is_Some (AnimatedObject.keyframes example_object !! 10) ∧ 5 < 10 ∧
  AnimatedObject.get_interpolated_state example_object 5
  = inr (Some (mkState 50 0 100)).
Proof.
  assert (H0 : is_Some (AnimatedObject.keyframes example_object !! 0))
    by (by eexists).
  assert (H10 : is_Some (AnimatedObject.keyframes example_object !! 10))
    by (by eexists).
  split; [reflexivity|]. split; [exact H0|]. split; [lia|].
  split; [exact H10|]. split; [lia|].
  destruct (proj1 get_interpolated_state_between example_object 5 0 10
              eq_refl H0 ltac:(lia) H10 ltac:(lia))
    as (b & a & sb & sa & t & Hb & Ha & Hsb & Hsa & Ht & ->).
  destruct Hb as (Hbk & Hb5 & Hbmax). destruct Ha as (Hak & Ha5 & Hamin).
  assert (b = 0) as ->.
  { specialize (Hbmax 0 H0 ltac:(lia)).
    destruct (example_object_keys b Hbk); lia. }
  assert (a = 10) as ->.
  { specialize (Hamin 10 H10 ltac:(lia)).
    destruct (example_object_keys a Hak); lia. }
  vm_compute in Hsb. injection Hsb as <-.
  vm_compute in Hsa. injection Hsa as <-.
  vm_compute in Ht. injection Ht as <-.
  vm_compute. reflexivity.
Defined.

Lemma get_interpolated_state_exact_witness :
  AnimatedObject.keyframes example_object !! 10 = Some (mkState 100 0 100) ∧
  AnimatedObject.get_interpolated_state example_object 10
  = inr (Some (mkState 100 0 100)).
Proof.
  split; [reflexivity|].
  apply (get_interpolated_state_exact example_object 10). reflexivity.
Defined.

Lemma get_interpolated_state_clamp_witness :
  AnimatedObject.keyframes example_object ≠ ∅ ∧
  AnimatedObject.get_interpolated_state example_object (-3)
  = inr (Some (mkState 0 0 100)) ∧
  AnimatedObject.get_interpolated_state example_object 13
  = inr (Some (mkState 100 0 100)).
Proof.
  assert (Hne : AnimatedObject.keyframes example_object ≠ ∅).
  { intros He. assert (AnimatedObject.keyframes example_object !! 0 = None)
      as Hnone by (rewrite He; apply lookup_empty). discriminate Hnone. }
  split; [exact Hne|].
  destruct (get_interpolated_state_clamp example_object Hne)
    as (k_min & s_min & k_max & s_max & Hmin & [Hkmin Hleast] & Hmax
        & [Hkmax Hgreatest] & Hclamp).
  assert (k_min = 0) as ->.
  { specialize (Hleast 0 ltac:(by eexists)).
    destruct (example_object_keys k_min Hkmin); lia. }
  assert (k_max = 10) as ->.
  { specialize (Hgreatest 10 ltac:(by eexists)).
    destruct (example_object_keys k_max Hkmax); lia. }
  vm_compute in Hmin. injection Hmin as <-.
  vm_compute in Hmax. injection Hmax as <-.
  split.
  - apply (Hclamp (-3)). intros k Hk. destruct (example_object_keys k Hk); lia.
  - apply (Hclamp 13). intros k Hk. destruct (example_object_keys k Hk); lia.
Defined.

Lemma empty_store_no_state_witness :
  AnimatedObject.keyframes (AnimatedObject.init 400 300 50) = ∅ ∧
  AnimatedObject.get_interpolated_state (AnimatedObject.init 400 300 50) 7
  = inr None ∧
  Canvas.objects
    (AnimationSoftware.canvas
       (AnimationSoftware.update_objects_for_frame 7 example_window).2) !! 0%nat
  = Some (AnimatedObject.init 400 300 50).
Proof.
  split; [reflexivity|]. split.
  - apply (proj1 (empty_store_no_state 7)). reflexivity.
  - apply (proj2 (empty_store_no_state 7) example_window 0%nat); reflexivity.
Defined.





Lemma set_brightness_in_range_witness :
  valid_color (AnimatedObject.base_color (AnimatedObject.init 400 300 50)) ∧
  (0 <=? 200)%float = true ∧ (200 <=? brightness_bound)%float = true ∧
  ∃ r g b,
    AnimatedObject.set_brightness 200 (AnimatedObject.init 400 300 50)
    = (inr tt,
       AnimatedObject.with_brush (mkQColor r g b)
         (AnimatedObject.with_brightness 200 (AnimatedObject.init 400 300 50))) ∧
    channel r ∧ channel g ∧ channel b.
Proof.
  assert (Hc : valid_color
                 (AnimatedObject.base_color (AnimatedObject.init 400 300 50))).
  { unfold valid_color, channel. simpl. lia. }
  split; [exact Hc|]. split; [reflexivity|]. split; [reflexivity|].
  destruct (set_brightness_in_range (AnimatedObject.init 400 300 50) 200%float
              Hc eq_refl eq_refl) as (r & g & b & Hset & _ & _ & _ & Hr & Hg & Hb).
  exists r, g, b. split; [exact Hset|]. split; [exact Hr|]. split; [exact Hg|exact Hb].
Defined.

Lemma remove_add_keyframe_witness :
  AnimatedObject.keyframes example_object !! 3 = None ∧
  AnimatedObject.remove_keyframe 3 (AnimatedObject.add_keyframe 3 example_object)
  = example_object.
Proof.
  split; [reflexivity|].
  apply (remove_add_keyframe example_object 3). reflexivity.
Defined.

(** * The further properties on concrete values *)

Lemma add_keyframe_snapshot_witness :
  AnimatedObject.get_interpolated_state
    (AnimatedObject.add_keyframe 5 example_object) 5
  = inr (Some (mkState 400 300 100)) ∧
  AnimatedObject.keyframes (AnimatedObject.add_keyframe 5 example_object) !! 0
  = Some (mkState 0 0 100).
Proof.
  destruct (add_keyframe_snapshot example_object 5) as (_ & Hother & Hread & _).
  split; [exact Hread|]. rewrite (Hother 0) by lia. reflexivity.
Defined.

Lemma remove_keyframe_only_witness :
  AnimatedObject.keyframes example_object !! 3 = None ∧
  AnimatedObject.remove_keyframe 3 example_object = example_object ∧
  AnimatedObject.keyframes (AnimatedObject.remove_keyframe 0 example_object) !! 10
  = Some (mkState 100 0 100).
Proof.
  split; [reflexivity|]. split.
  - apply (remove_keyframe_only example_object 3). reflexivity.
  - destruct (remove_keyframe_only example_object 0) as (_ & Hother & _).
    rewrite (Hother 10) by lia. reflexivity.
Defined.

Lemma update_object_for_frame_applies_witness :
  AnimatedObject.get_interpolated_state dimmed_object 0
  = inr (Some (mkState 10 20 50)) ∧
  valid_color (AnimatedObject.base_color dimmed_object) ∧
  (0 <=? 50)%float = true ∧ (50 <=? brightness_bound)%float = true ∧
  ∃ r g b,
    AnimationSoftware.update_object_for_frame 0 dimmed_object =
      (inr tt,
       AnimatedObject.mk (10%float, 20%float) 50 (mkQColor 100 150 255)
         (mkQColor r g b) {[0 := mkState 10 20 50]} 50) ∧
    channel r ∧ channel g ∧ channel b.
Proof.
  assert (Hc : valid_color (AnimatedObject.base_color dimmed_object)).
  { unfold valid_color, channel. simpl. lia. }
  split; [reflexivity|]. split; [exact Hc|].
  split; [reflexivity|]. split; [reflexivity|].
  destruct (update_object_for_frame_applies 0 dimmed_object (mkState 10 20 50)
              eq_refl Hc eq_refl eq_refl)
    as (r & g & b & Hrun & _ & _ & _ & Hr & Hg & Hb).
  exists r, g, b. split; [exact Hrun|]. split; [exact Hr|]. split; [exact Hg|exact Hb].
Defined.

Lemma set_brightness_100_and_0_witness :
  valid_color (AnimatedObject.base_color example_object) ∧
  AnimatedObject.brush (AnimatedObject.set_brightness 100 example_object).2
  = mkQColor 100 150 255 ∧
  AnimatedObject.brush (AnimatedObject.set_brightness 0 example_object).2
  = mkQColor 0 0 0.
Proof.
  assert (Hc : valid_color (AnimatedObject.base_color example_object)).
  { unfold valid_color, channel. simpl. lia. }
  split; [exact Hc|].
  destruct (set_brightness_100_and_0 example_object Hc) as [-> ->].
  split; reflexivity.
Defined.

Lemma set_brightness_nan_witness :
  Prim2SF nan = S754_nan ∧
  valid_color (AnimatedObject.base_color example_object) ∧
  AnimatedObject.set_brightness nan example_object
  = (inl ValueError, AnimatedObject.with_brightness nan example_object).
Proof.
  assert (Hc : valid_color (AnimatedObject.base_color example_object)).
  { unfold valid_color, channel. simpl. lia. }
  split; [reflexivity|]. split; [exact Hc|].
  apply (set_brightness_nan nan example_object eq_refl Hc).
Defined.


Lemma on_bar_move_edges_witness :
  isfinite (-25) = true ∧ (-25 <=? 0)%float = true ∧
  Timeline.on_bar_move (-25) (Timeline.init 300)
  = (inr 0, Timeline.mk 300 0 0) ∧
  Prim2SF infinity = S754_infinity false ∧
  Timeline.on_bar_move infinity (Timeline.init 300)
  = (inl OverflowError, Timeline.init 300) ∧
  Timeline.on_bar_move nan (Timeline.init 300)
  = (inl ValueError, Timeline.init 300).
Proof.
  destruct (on_bar_move_edges (Timeline.init 300)) as (Hleft & Hinf & Hnan & _).
  split; [reflexivity|]. split; [reflexivity|].
  split; [apply (Hleft (-25)%float); reflexivity|].
  split; [reflexivity|].
  split; [apply (Hinf infinity false); reflexivity|].
  apply (Hnan nan). reflexivity.
Defined.

Lemma keyframes_of_items_last_wins_witness :
  keyframes_of_items
    ([("1"%string, mkState 0 0 100)] ++ [("01"%string, mkState 9 9 100)]) ∅
  = inr (<[1 := mkState 9 9 100]> {[1 := mkState 0 0 100]}) ∧
  (<[1 := mkState 9 9 100]> {[1 := mkState 0 0 100]} : gmap Z State) !! 1
  = Some (mkState 9 9 100).
Proof.
  assert (Hrun : keyframes_of_items
            ([("1"%string, mkState 0 0 100)] ++ [("01"%string, mkState 9 9 100)]) ∅
          = inr (<[1 := mkState 9 9 100]> {[1 := mkState 0 0 100]}))
    by reflexivity.
  split; [exact Hrun|].
  destruct (keyframes_of_items_last_wins _ _ _ _ _ Hrun)
    as (frame & m0 & Hframe & _ & Hlast & _).
  vm_compute in Hframe. injection Hframe as <-. exact Hlast.
Defined.



Lemma single_keyframe_everywhere_witness :
  AnimatedObject.keyframes dimmed_object = {[0 := mkState 10 20 50]} ∧
  AnimatedObject.get_interpolated_state dimmed_object 77
  = inr (Some (mkState 10 20 50)).
Proof.
  split; [reflexivity|].
  apply (single_keyframe_everywhere dimmed_object 0 (mkState 10 20 50) 77).
  reflexivity.
Defined.

Lemma example_object_more_keys k :
  is_Some (AnimatedObject.keyframes example_object_more !! k) →
  k = 0 ∨ k = 10 ∨ k = 50.
Proof.
  intros [v Hv]. unfold example_object_more in Hv. simpl in Hv.
  destruct (decide (k = 50)) as [|Hne]; [by auto|].
  rewrite lookup_insert_ne in Hv by done.
  destruct (example_object_keys k ltac:(by eexists)); auto.
Defined.

Lemma interpolation_is_local_witness :
  greatest_key_below (AnimatedObject.keyframes example_object) 5 0 ∧
  greatest_key_below (AnimatedObject.keyframes example_object_more) 5 0 ∧
  smallest_key_above (AnimatedObject.keyframes example_object) 5 10 ∧
  smallest_key_above (AnimatedObject.keyframes example_object_more) 5 10 ∧
  AnimatedObject.get_interpolated_state example_object 5
  = AnimatedObject.get_interpolated_state example_object_more 5.
Proof.
  assert (Hb : greatest_key_below (AnimatedObject.keyframes example_object) 5 0).
  { split; [by eexists|]. split; [lia|].
    intros k Hk Hlt. destruct (example_object_keys k Hk); lia. }
  assert (Hb' : greatest_key_below
                  (AnimatedObject.keyframes example_object_more) 5 0).
  { split; [by eexists|]. split; [lia|].
    intros k Hk Hlt. destruct (example_object_more_keys k Hk) as [|[|]]; lia. }
  assert (Ha : smallest_key_above (AnimatedObject.keyframes example_object) 5 10).
  { split; [by eexists|]. split; [lia|].
    intros k Hk Hlt. destruct (example_object_keys k Hk); lia. }
  assert (Ha' : smallest_key_above
                  (AnimatedObject.keyframes example_object_more) 5 10).
  { split; [by eexists|]. split; [lia|].
    intros k Hk Hlt. destruct (example_object_more_keys k Hk) as [|[|]]; lia. }
  split; [exact Hb|]. split; [exact Hb'|]. split; [exact Ha|]. split; [exact Ha'|].
  apply (interpolation_is_local example_object example_object_more 5 0 10
           (mkState 0 0 100) (mkState 100 0 100)
           eq_refl eq_refl eq_refl eq_refl eq_refl eq_refl Hb Hb' Ha Ha').
Defined.

Lemma next_frame_into_range_witness :
  0 < AnimationSoftware.max_frames
        (AnimationSoftware.with_current_frame 350 example_window) ∧
  -1 <= AnimationSoftware.current_frame
          (AnimationSoftware.with_current_frame 350 example_window) ∧
  AnimationSoftware.current_frame
    (AnimationSoftware.next_frame
       (AnimationSoftware.with_current_frame 350 example_window)).2 = 0.
Proof.
  split; [reflexivity|]. split; [simpl; lia|].
  apply (next_frame_into_range
           (AnimationSoftware.with_current_frame 350 example_window)).
  - reflexivity.
  - simpl. lia.
  - simpl. lia.
Defined.
